(** * sensor-mesh: the daemon's replicated-log synchronisation loops

  A shallow embedding of [cmd/daemon.go] (the two-goroutine daemon:
  [publish], [subscribe], [daemonCmd.PreRun], [daemonCmd.Run]) and of the
  single-goroutine variant of the same command, followed by the
  properties of the loops, of the de-duplicating sink and of the
  shutdown paths.

  Conventions.
  - A Go [[]byte] is [option (list byte)]: [None] is the nil slice, which
    [reflect.DeepEqual] tells apart from an empty non-nil slice.
  - The replicated log store, the clock, the file system and zerolog are
    the environment: what a call returns is an input of the iteration
    that makes the call.
  - A [for { ... }] loop is run over the finite list of inputs its
    iterations consume; a panic unwinds the goroutine (its deferred calls
    run) and ends the process.
  - A call whose error the code drops is logged with what became of it:
    the [Write] behind [Println] on the sink file may fail, and the
    consumer goes on. *)

From Stdlib Require Import List ZArith Lia Bool Strings.Byte String.
Import ListNotations.

(** ** Go values and library functions used by the daemon *)

Module Go.

(** [[]byte]: nil, or a non-nil slice with its bytes. *)
Definition bytes : Type := option (list byte).

(** The conversion [string(b)]; the nil slice gives the empty string. *)
Definition string_of (b : bytes) : list byte :=
  match b with
  | None => []
  | Some l => l
  end.

Fixpoint list_byte_eqb (a b : list byte) : bool :=
  match a, b with
  | [], [] => true
  | x :: a', y :: b' => Byte.eqb x y && list_byte_eqb a' b'
  | _, _ => false
  end.

(** [reflect.DeepEqual] on two [[]byte]: both nil, or both non-nil with
    the same length and the same elements. *)
Definition DeepEqual (a b : bytes) : bool :=
  match a, b with
  | None, None => true
  | Some x, Some y => list_byte_eqb x y
  | _, _ => false
  end.

Definition LF : byte := x0a.

(** The loop of [strings.trimRightByte], run on the reversed string:
    [for len(s) > 0 && s[len(s)-1] == c { s = s[:len(s)-1] }]. *)
Fixpoint drop_leading (c : byte) (r : list byte) : list byte :=
  match r with
  | [] => []
  | b :: r' => if Byte.eqb b c then drop_leading c r' else r
  end.

Definition trimRightByte (s : list byte) (c : byte) : list byte :=
  rev (drop_leading c (rev s)).

(** [strings.TrimRight(s, cutset)] for the one-byte ASCII cutsets the
    daemon passes (its fast path); an empty string or cutset returns [s]. *)
Definition TrimRight (s : list byte) (cutset : list byte) : list byte :=
  match s, cutset with
  | [], _ => s
  | _, [] => s
  | _, [c] => trimRightByte s c
  | _, _ => s
  end.

(** [fmt.Sprintln] of one string operand. *)
Definition Sprintln (s : list byte) : list byte := s ++ [LF].

Definition ends_with (c : byte) (s : list byte) : bool :=
  match rev s with
  | [] => false
  | b :: _ => Byte.eqb b c
  end.

(** [Output] of [log.Logger] with an empty prefix and flags 0: the message,
    with a newline appended when it does not already end with one. The
    result is the buffer handed to the writer in one [Write] call. *)
Definition Logger_Output (s : list byte) : list byte :=
  if ends_with LF s then s else s ++ [LF].

(** [Println] of [log.Logger] of one string operand. *)
Definition Println (s : list byte) : list byte :=
  Logger_Output (Sprintln s).

(** int64 arithmetic of [time.Now().Unix()] differences. *)
Definition wrap64 (z : Z) : Z :=
  ((z + 2 ^ 63) mod 2 ^ 64 - 2 ^ 63)%Z.

Definition sub64 (a b : Z) : Z := wrap64 (a - b).

(** A Go [error] value, by its message. *)
Definition error : Type := string.

(** A call that returns [(value, error)]. *)
Inductive result (A : Type) : Type :=
| Ok (a : A)
| Err (e : error).
Arguments Ok {A} a.
Arguments Err {A} e.

(** The values the daemon panics with, and the runtime's own panic for
    an index out of range. *)
Inductive panic : Type :=
| ConfigNotSet (e : error)
| IpfsApiFailed (e : error)
| NewOrbitDBFailed (e : error)
| CreateStoreFailed (e : error)
| OpenStoreFailed (e : error)
| GetLogStoreFailed (e : error)
| UpdateConfigFailed (e : error)
| OpenLogFileFailed (e : error)
| PutFailed (e : error)
| ListFailed (e : error)
| IndexOutOfRange (index len : nat)
| NilDereference.

(** How one iteration of a loop body ends. *)
Inductive outcome (S : Type) : Type :=
| Next (s : S)
| Panics (p : panic) (s : S).
Arguments Next {S} s.
Arguments Panics {S} p s.

(** A [for { body }] loop over the inputs of its iterations: it leaves
    only by a panic; with the inputs used up it is still spinning. *)
Inductive loop_end (S : Type) : Type :=
| Spinning (s : S)
| Unwound (p : panic) (s : S).
Arguments Spinning {S} s.
Arguments Unwound {S} p s.

Fixpoint for_loop {I S : Type} (body : I -> S -> outcome S)
         (ins : list I) (s : S) : loop_end S :=
  match ins with
  | [] => Spinning s
  | i :: rest =>
      match body i s with
      | Next s' => for_loop body rest s'
      | Panics p s' => Unwound p s'
      end
  end.

Definition end_state {S : Type} (e : loop_end S) : S :=
  match e with
  | Spinning s => s
  | Unwound _ s => s
  end.

(** The package-level [ctx]: nil until [context.WithCancel] creates it,
    then running until [cancel()] is called, and never back. *)
Inductive lifecycle : Type := Unset | Running | Cancelled.

(** What [Write] on an [os.File] makes of its buffer: it writes all of it,
    or it returns an error after writing its first [n] bytes ([n] may be
    0). *)
Inductive write_result : Type :=
| Written
| WriteFailed (n : nat) (e : error).

(** The bytes of the buffer that reached the file. *)
Definition landed (w : write_result) (buf : list byte) : list byte :=
  match w with
  | Written => buf
  | WriteFailed n _ => firstn n buf
  end.

(** The process: alive; dying (a goroutine panicked and was not
    recovered, the runtime is about to exit with status 2 while other
    goroutines still run); exited by returning from main; crashed. *)
Inductive process : Type :=
| Alive
| Dying (p : panic)
| Exited (code : Z)
| Crashed (p : panic).

Inductive phase : Type := Starting | Looping | Dead.

(** An entry of the list [logStore.List] returns ([operation.Operation] of
    go-orbit-db), by what the daemon reads of it. *)
Record Operation : Type := { GetValue : bytes }.

End Go.

Import Go.

(** ** [cmd/daemon.go]: the two-goroutine daemon *)

Module Daemon.

(** *** [subscribe] *)

(** The consumer's variables: [lastValue], and the sink file as the
    [Write] calls made on it since it was opened, oldest first, each with
    its buffer and what became of it (the file was opened with
    [O_APPEND|O_CREATE], so what is written follows whatever it held). *)
Record sub_state : Type := {
  lastValue : bytes;
  sink : list (list byte * write_result)
}.

(** [var lastValue []byte]: nil. *)
Definition sub_init : sub_state := {| lastValue := None; sink := [] |}.

(** [fileWriter.Println(strings.TrimRight(string(v), "\n"))]: the buffer
    handed to the sink's [Write] for an accepted value [v]. *)
Definition sink_line (v : bytes) : list byte :=
  Println (TrimRight (string_of v) [LF]).

(** One iteration of the loop of [subscribe], given what
    [logStore.List(ctx, ...)] returns in it and what becomes of the [Write]
    behind [Println] if the iteration makes one. [lastValue] is assigned
    first; [Println] returns nothing, so a failed [Write] goes unnoticed. *)
Definition subscribe_iter (r : result (list Operation)) (w : write_result)
           (st : sub_state) : outcome sub_state :=
  match r with
  | Err e => Panics (ListFailed e) st
  | Ok op =>
      match op with
      | o :: _ =>
          if negb (DeepEqual (GetValue o) (lastValue st)) then
            Next {| lastValue := GetValue o;
                    sink := sink st ++ [(sink_line (GetValue o), w)] |}
          else Next st
      | [] => Next st
      end
  end.

(** The bytes of the sink file, [before] being what it held when opened:
    of each [Write], what reached the file. *)
Definition file_content (before : list byte) (st : sub_state) : list byte :=
  before ++ List.concat (map (fun c => landed (snd c) (fst c)) (sink st)).

(** *** [publish] *)

(** The producer's variables: [lastTriggerTime], the package-level [logbuf],
    and the calls made to [logStore.Add], oldest first, each with its payload
    and whether it was appended. *)
Record pub_state : Type := {
  lastTriggerTime : Z;
  logbuf : list byte;
  adds : list (list byte * bool)
}.

(** What one iteration of [publish] takes from its environment: the clock,
    the line zerolog emits into [logbuf] for the whisper event, and what
    [logStore.Add] returns (the last two are used when the interval has
    elapsed). *)
Record pub_input : Type := {
  now : Z;
  whisper : list byte;
  add_result : result unit
}.

(** [currentTime-lastTriggerTime >= 30]. *)
Definition due (i : pub_input) (st : pub_state) : bool :=
  (30 <=? sub64 (now i) (lastTriggerTime st))%Z.

(** One iteration of the loop of [publish]. *)
Definition publish_iter (i : pub_input) (st : pub_state) : outcome pub_state :=
  let currentTime := now i in
  if due i st then
    let buf := logbuf st ++ whisper i in
    match add_result i with
    | Err e =>
        Panics (PutFailed e)
               {| lastTriggerTime := currentTime;
                  logbuf := buf;
                  adds := adds st ++ [(buf, false)] |}
    | Ok _ =>
        Next {| lastTriggerTime := currentTime;
                logbuf := [];
                adds := adds st ++ [(buf, true)] |}
    end
  else
    Next {| lastTriggerTime := lastTriggerTime st;
            logbuf := [];
            adds := adds st |}.

(** [lastTriggerTime := time.Now().Unix()] with the fresh [logbuf]. *)
Definition pub_init (t0 : Z) : pub_state :=
  {| lastTriggerTime := t0; logbuf := []; adds := [] |}.

(** The payloads this node appended to the replicated log. *)
Definition appended (st : pub_state) : list (list byte) :=
  map fst (filter snd (adds st)).

(** *** The process: [PreRun], [Run] and the two goroutines *)

Record daemon : Type := {
  ctx : lifecycle;
  proc : process;
  pub_phase : phase;
  pub_st : pub_state;
  sub_phase : phase;
  sub_st : sub_state;
  file_opens : nat;
  file_closes : nat;
  cfg_loads : nat;
  cfg_storeaddress : option string;
  cfg_writes : nat
}.

Definition boot : daemon :=
  {| ctx := Unset; proc := Alive;
     pub_phase := Starting; pub_st := pub_init 0;
     sub_phase := Starting; sub_st := sub_init;
     file_opens := 0; file_closes := 0;
     cfg_loads := 0; cfg_storeaddress := None; cfg_writes := 0 |}.

(** What the calls of [PreRun] return. *)
Record setup_env : Type := {
  config_exists : result unit;
  ipfs_api : result unit;
  new_orbitdb : result unit;
  db_log : result string;
  write_config : result unit
}.

(** Modelled from the spec: [shared.LoadConfigurationFromFile] is not among
    the sources; the spec has the configuration store read at startup, and
    the call is counted as one load. *)
Definition loaded (d : daemon) : daemon :=
  {| ctx := ctx d; proc := proc d;
     pub_phase := pub_phase d; pub_st := pub_st d;
     sub_phase := sub_phase d; sub_st := sub_st d;
     file_opens := file_opens d; file_closes := file_closes d;
     cfg_loads := S (cfg_loads d);
     cfg_storeaddress := cfg_storeaddress d; cfg_writes := cfg_writes d |}.

(** [ctx, cancel = context.WithCancel(context.Background())]. *)
Definition context_created (d : daemon) : daemon :=
  {| ctx := Running; proc := proc d;
     pub_phase := pub_phase d; pub_st := pub_st d;
     sub_phase := sub_phase d; sub_st := sub_st d;
     file_opens := file_opens d; file_closes := file_closes d;
     cfg_loads := cfg_loads d;
     cfg_storeaddress := cfg_storeaddress d; cfg_writes := cfg_writes d |}.

(** [shared.ViperConfs.Set("orbitdb.storeaddress", a)]. *)
Definition set_storeaddress (a : string) (d : daemon) : daemon :=
  {| ctx := ctx d; proc := proc d;
     pub_phase := pub_phase d; pub_st := pub_st d;
     sub_phase := sub_phase d; sub_st := sub_st d;
     file_opens := file_opens d; file_closes := file_closes d;
     cfg_loads := cfg_loads d;
     cfg_storeaddress := Some a; cfg_writes := cfg_writes d |}.

(** A call of [shared.ViperConfs.WriteConfig]. *)
Definition config_written (d : daemon) : daemon :=
  {| ctx := ctx d; proc := proc d;
     pub_phase := pub_phase d; pub_st := pub_st d;
     sub_phase := sub_phase d; sub_st := sub_st d;
     file_opens := file_opens d; file_closes := file_closes d;
     cfg_loads := cfg_loads d;
     cfg_storeaddress := cfg_storeaddress d; cfg_writes := S (cfg_writes d) |}.

(** [daemonCmd.PreRun]: each failing call panics; the context is created
    once the IPFS API is reached, before the OrbitDB instance; the resolved
    address is set and the configuration written last. *)
Definition PreRun (env : setup_env) : outcome daemon :=
  match config_exists env with
  | Err e => Panics (ConfigNotSet e) boot
  | Ok _ =>
      let d1 := loaded boot in
      match ipfs_api env with
      | Err e => Panics (IpfsApiFailed e) d1
      | Ok _ =>
          let d2 := context_created d1 in
          match new_orbitdb env with
          | Err e => Panics (NewOrbitDBFailed e) d2
          | Ok _ =>
              match db_log env with
              | Err e => Panics (GetLogStoreFailed e) d2
              | Ok address =>
                  let d3 := config_written (set_storeaddress address d2) in
                  match write_config env with
                  | Err e => Panics (UpdateConfigFailed e) d3
                  | Ok _ => Next d3
                  end
              end
          end
      end
  end.

(** An unrecovered panic in a goroutine: the process is lost. *)
Definition doomed (p : panic) (q : process) : process :=
  match q with
  | Alive => Dying p
  | _ => q
  end.

(** What happens next in the running daemon: an iteration of either loop,
    [subscribe] opening its file, the interrupt reaching [Run], or the
    runtime ending a process whose goroutine panicked. *)
Inductive event : Type :=
| PubIter (i : pub_input)
| SubOpen (r : result unit)
| SubIter (r : result (list Operation)) (w : write_result)
| Sigint
| RuntimeExit.

(** [publish]'s iteration inside the process; on a panic its deferred
    [cancel()] runs. (The goroutines are started by [Run], after [PreRun]
    has created the context.) *)
Definition pub_step (i : pub_input) (d : daemon) : daemon :=
  match pub_phase d with
  | Looping =>
      match publish_iter i (pub_st d) with
      | Next s =>
          {| ctx := ctx d; proc := proc d;
             pub_phase := Looping; pub_st := s;
             sub_phase := sub_phase d; sub_st := sub_st d;
             file_opens := file_opens d; file_closes := file_closes d;
             cfg_loads := cfg_loads d;
             cfg_storeaddress := cfg_storeaddress d;
             cfg_writes := cfg_writes d |}
      | Panics p s =>
          {| ctx := Cancelled; proc := doomed p (proc d);
             pub_phase := Dead; pub_st := s;
             sub_phase := sub_phase d; sub_st := sub_st d;
             file_opens := file_opens d; file_closes := file_closes d;
             cfg_loads := cfg_loads d;
             cfg_storeaddress := cfg_storeaddress d;
             cfg_writes := cfg_writes d |}
      end
  | _ => d
  end.

(** [os.OpenFile] in [subscribe]: a failure panics with only [cancel()]
    deferred; a success defers [file.Close()] and enters the loop. *)
Definition open_step (r : result unit) (d : daemon) : daemon :=
  match sub_phase d with
  | Starting =>
      match r with
      | Ok _ =>
          {| ctx := ctx d; proc := proc d;
             pub_phase := pub_phase d; pub_st := pub_st d;
             sub_phase := Looping; sub_st := sub_st d;
             file_opens := S (file_opens d); file_closes := file_closes d;
             cfg_loads := cfg_loads d;
             cfg_storeaddress := cfg_storeaddress d;
             cfg_writes := cfg_writes d |}
      | Err e =>
          {| ctx := Cancelled; proc := doomed (OpenLogFileFailed e) (proc d);
             pub_phase := pub_phase d; pub_st := pub_st d;
             sub_phase := Dead; sub_st := sub_st d;
             file_opens := file_opens d; file_closes := file_closes d;
             cfg_loads := cfg_loads d;
             cfg_storeaddress := cfg_storeaddress d;
             cfg_writes := cfg_writes d |}
      end
  | _ => d
  end.

(** [subscribe]'s iteration inside the process; on a panic its deferred
    [file.Close()] and then [cancel()] run. *)
Definition sub_step (r : result (list Operation)) (w : write_result)
           (d : daemon) : daemon :=
  match sub_phase d with
  | Looping =>
      match subscribe_iter r w (sub_st d) with
      | Next s =>
          {| ctx := ctx d; proc := proc d;
             pub_phase := pub_phase d; pub_st := pub_st d;
             sub_phase := Looping; sub_st := s;
             file_opens := file_opens d; file_closes := file_closes d;
             cfg_loads := cfg_loads d;
             cfg_storeaddress := cfg_storeaddress d;
             cfg_writes := cfg_writes d |}
      | Panics p s =>
          {| ctx := Cancelled; proc := doomed p (proc d);
             pub_phase := pub_phase d; pub_st := pub_st d;
             sub_phase := Dead; sub_st := s;
             file_opens := file_opens d; file_closes := S (file_closes d);
             cfg_loads := cfg_loads d;
             cfg_storeaddress := cfg_storeaddress d;
             cfg_writes := cfg_writes d |}
      end
  | _ => d
  end.

Definition with_proc (q : process) (d : daemon) : daemon :=
  {| ctx := ctx d; proc := q;
     pub_phase := pub_phase d; pub_st := pub_st d;
     sub_phase := sub_phase d; sub_st := sub_st d;
     file_opens := file_opens d; file_closes := file_closes d;
     cfg_loads := cfg_loads d;
     cfg_storeaddress := cfg_storeaddress d; cfg_writes := cfg_writes d |}.

(** One event. Nothing runs in a process that has ended. [Run] only waits
    for the interrupt, prints and returns: the process then exits with
    status 0, with no call of [cancel()] and no deferred call of a
    goroutine run. *)
Definition step (e : event) (d : daemon) : daemon :=
  match proc d with
  | Exited _ | Crashed _ => d
  | _ =>
      match e with
      | PubIter i => pub_step i d
      | SubOpen r => open_step r d
      | SubIter r w => sub_step r w d
      | Sigint =>
          match proc d with
          | Alive => with_proc (Exited 0) d
          | _ => d
          end
      | RuntimeExit =>
          match proc d with
          | Dying p => with_proc (Crashed p) d
          | _ => d
          end
      end
  end.

Definition run (evs : list event) (d : daemon) : daemon :=
  fold_left (fun s e => step e s) evs d.

(** [daemonCmd.Run]: [go publish()], whose first statement reads the clock
    ([t0]), and [go subscribe()]. *)
Definition Run_start (t0 : Z) (d : daemon) : daemon :=
  {| ctx := ctx d; proc := proc d;
     pub_phase := Looping; pub_st := pub_init t0;
     sub_phase := Starting; sub_st := sub_init;
     file_opens := file_opens d; file_closes := file_closes d;
     cfg_loads := cfg_loads d;
     cfg_storeaddress := cfg_storeaddress d; cfg_writes := cfg_writes d |}.

(** The command from start to the state after the events [evs]. A panic in
    [PreRun] is a panic of the main goroutine. *)
Definition daemon_cmd (env : setup_env) (t0 : Z) (evs : list event) : daemon :=
  match PreRun env with
  | Next d => run evs (Run_start t0 d)
  | Panics p d => with_proc (Crashed p) d
  end.

End Daemon.

(** ** The single-goroutine variant of the command

    [Run] starts one goroutine that appends a value, lists the log and
    prints the newest entry every two seconds; the main goroutine writes the
    configuration after the interrupt. *)

Module Combined.

(** The calls made to [logStore.Add] and the lines printed on standard
    output, oldest first. *)
Record loop_state : Type := {
  adds : list (list byte * bool);
  stdout : list (list byte)
}.

Definition loop_init : loop_state := {| adds := []; stdout := [] |}.

(** What one iteration takes from its environment: the configured name,
    [time.Now().String()], and what [Add] and [List] return. *)
Record loop_input : Type := {
  name : list byte;
  now_string : list byte;
  add_result : result unit;
  list_result : result (list Operation)
}.

(** [[]byte(name + " " + time.Now().String())]. *)
Definition value_of (i : loop_input) : list byte :=
  name i ++ [x20] ++ now_string i.

(** One iteration of the loop in [Run]: [op[0]] is read with no test of
    [len(op)]. *)
Definition loop_iter (i : loop_input) (st : loop_state) : outcome loop_state :=
  let value := value_of i in
  match add_result i with
  | Err e =>
      Panics (PutFailed e)
             {| adds := adds st ++ [(value, false)]; stdout := stdout st |}
  | Ok _ =>
      let st1 := {| adds := adds st ++ [(value, true)]; stdout := stdout st |} in
      match list_result i with
      | Err e => Panics (ListFailed e) st1
      | Ok op =>
          match op with
          | [] => Panics (IndexOutOfRange 0 0) st1
          | o :: _ =>
              Next {| adds := adds st1;
                      stdout := stdout st1 ++ [Sprintln (string_of (GetValue o))] |}
          end
      end
  end.

Record daemon : Type := {
  ctx : lifecycle;
  proc : process;
  loop_phase : phase;
  loop_st : loop_state;
  cfg_loads : nat;
  cfg_writes : nat
}.

Definition boot : daemon :=
  {| ctx := Unset; proc := Alive;
     loop_phase := Starting; loop_st := loop_init;
     cfg_loads := 0; cfg_writes := 0 |}.

(** What the calls of [PreRun] return; [determine_address] gives the found
    address, which may be nil with a nil error. *)
Record setup_env : Type := {
  config_exists : result unit;
  ipfs_api : result unit;
  new_orbitdb : result unit;
  determine_address : result (option string);
  db_create : result string;
  db_open : result unit;
  db_log : result unit
}.

(** Modelled from the spec: [shared.LoadConfigurationFromFile] is not among
    the sources; the call is counted as one load of the configuration. *)
Definition loaded (d : daemon) : daemon :=
  {| ctx := ctx d; proc := proc d;
     loop_phase := loop_phase d; loop_st := loop_st d;
     cfg_loads := S (cfg_loads d); cfg_writes := cfg_writes d |}.

(** [ctx, cancel = context.WithCancel(context.Background())]. *)
Definition context_created (d : daemon) : daemon :=
  {| ctx := Running; proc := proc d;
     loop_phase := loop_phase d; loop_st := loop_st d;
     cfg_loads := cfg_loads d; cfg_writes := cfg_writes d |}.

(** The tail of [PreRun] once [dbStore] is set. *)
Definition get_log_store (env : setup_env) (d : daemon) : outcome daemon :=
  match db_log env with
  | Err e => Panics (GetLogStoreFailed e) d
  | Ok _ => Next d
  end.

(** [daemonCmd.PreRun] of this variant: it never writes the
    configuration. *)
Definition PreRun (env : setup_env) : outcome daemon :=
  match config_exists env with
  | Err e => Panics (ConfigNotSet e) boot
  | Ok _ =>
      let d1 := loaded boot in
      match ipfs_api env with
      | Err e => Panics (IpfsApiFailed e) d1
      | Ok _ =>
          let d2 := context_created d1 in
          match new_orbitdb env with
          | Err e => Panics (NewOrbitDBFailed e) d2
          | Ok _ =>
              match determine_address env with
              | Err _ =>
                  match db_create env with
                  | Err e => Panics (CreateStoreFailed e) d2
                  | Ok _ => get_log_store env d2
                  end
              | Ok (Some _) =>
                  match db_open env with
                  | Err e => Panics (OpenStoreFailed e) d2
                  | Ok _ => get_log_store env d2
                  end
              | Ok None => Panics NilDereference d2
              end
          end
      end
  end.

Inductive event : Type :=
| Iter (i : loop_input)
| Sigint (write_config : result unit)
| RuntimeExit.

Definition doomed (p : panic) (q : process) : process :=
  match q with
  | Alive => Dying p
  | _ => q
  end.

(** The goroutine's iteration inside the process; on a panic its deferred
    [cancel()] runs. *)
Definition loop_step (i : loop_input) (d : daemon) : daemon :=
  match loop_phase d with
  | Looping =>
      match loop_iter i (loop_st d) with
      | Next s =>
          {| ctx := ctx d; proc := proc d;
             loop_phase := Looping; loop_st := s;
             cfg_loads := cfg_loads d; cfg_writes := cfg_writes d |}
      | Panics p s =>
          {| ctx := Cancelled; proc := doomed p (proc d);
             loop_phase := Dead; loop_st := s;
             cfg_loads := cfg_loads d; cfg_writes := cfg_writes d |}
      end
  | _ => d
  end.

(** The main goroutine after [<-c]: [WriteConfig], a panic if it fails,
    else the return from [Run]. *)
Definition interrupt (w : result unit) (d : daemon) : daemon :=
  {| ctx := ctx d;
     proc := match w with
             | Ok _ => Exited 0
             | Err e => Crashed (UpdateConfigFailed e)
             end;
     loop_phase := loop_phase d; loop_st := loop_st d;
     cfg_loads := cfg_loads d; cfg_writes := S (cfg_writes d) |}.

Definition step (e : event) (d : daemon) : daemon :=
  match proc d with
  | Exited _ | Crashed _ => d
  | _ =>
      match e with
      | Iter i => loop_step i d
      | Sigint w =>
          match proc d with
          | Alive => interrupt w d
          | _ => d
          end
      | RuntimeExit =>
          match proc d with
          | Dying p =>
              {| ctx := ctx d; proc := Crashed p;
                 loop_phase := loop_phase d; loop_st := loop_st d;
                 cfg_loads := cfg_loads d; cfg_writes := cfg_writes d |}
          | _ => d
          end
      end
  end.

Definition run (evs : list event) (d : daemon) : daemon :=
  fold_left (fun s e => step e s) evs d.

(** [Run] starts the goroutine. *)
Definition Run_start (d : daemon) : daemon :=
  {| ctx := ctx d; proc := proc d;
     loop_phase := Looping; loop_st := loop_init;
     cfg_loads := cfg_loads d; cfg_writes := cfg_writes d |}.

Definition daemon_cmd (env : setup_env) (evs : list event) : daemon :=
  match PreRun env with
  | Next d => run evs (Run_start d)
  | Panics p d =>
      {| ctx := ctx d; proc := Crashed p;
         loop_phase := loop_phase d; loop_st := loop_st d;
         cfg_loads := cfg_loads d; cfg_writes := cfg_writes d |}
  end.

End Combined.

(** ** Vocabulary of the properties *)

Import Daemon.

(** Whether two neighbours of a list are equal for [eqb]. *)
Fixpoint adjacent_equal {A : Type} (eqb : A -> A -> bool) (l : list A) : bool :=
  match l with
  | [] => false
  | x :: r =>
      match r with
      | [] => false
      | y :: _ => eqb x y || adjacent_equal eqb r
      end
  end.

(** What one iteration of the consumer takes from its environment: the
    result of [List] and what becomes of the [Write], if one is made. *)
Definition poll : Type := (result (list Operation) * write_result)%type.

(** The consumer loop over its successive polls, from a state [st]. *)
Definition subscribe_loop (polls : list poll) (st : sub_state)
  : loop_end sub_state :=
  for_loop (fun p => subscribe_iter (fst p) (snd p)) polls st.

(** Polls in which every [Write] succeeds. *)
Definition all_written (rs : list (result (list Operation))) : list poll :=
  map (fun r => (r, Written)) rs.

(** The log values the consumer accepts (sets [lastValue] to and hands to
    [Println]) over the results of successive [List] calls, [last] being
    the value it last saw before them. *)
Fixpoint accepted (last : bytes) (polls : list (result (list Operation)))
  : list bytes :=
  match polls with
  | [] => []
  | Err _ :: _ => []
  | Ok [] :: rest => accepted last rest
  | Ok (o :: _) :: rest =>
      if DeepEqual (GetValue o) last then accepted last rest
      else GetValue o :: accepted (GetValue o) rest
  end.

(** The accepted values over polls, each with what became of the [Write]
    of its line. *)
Fixpoint attempts (last : bytes) (polls : list poll)
  : list (bytes * write_result) :=
  match polls with
  | [] => []
  | (Err _, _) :: _ => []
  | (Ok [], _) :: rest => attempts last rest
  | (Ok (o :: _), w) :: rest =>
      if DeepEqual (GetValue o) last then attempts last rest
      else (GetValue o, w) :: attempts (GetValue o) rest
  end.

(** The [Write] call made for an accepted value. *)
Definition write_call (a : bytes * write_result) : list byte * write_result :=
  (sink_line (fst a), snd a).

(** A sequence without the elements equal to their predecessor, [prev]
    being the predecessor of the first. *)
Fixpoint dedup_after (prev : bytes) (l : list bytes) : list bytes :=
  match l with
  | [] => []
  | x :: r =>
      if DeepEqual x prev then dedup_after prev r
      else x :: dedup_after x r
  end.

(** The maximal collapse of a sequence under equality of adjacent
    elements: one element for each run of equal ones. *)
Definition collapse (l : list bytes) : list bytes :=
  match l with
  | [] => []
  | x :: r => x :: dedup_after x r
  end.

(** The polls of a consumer that sees every produced entry at least once:
    while [e] is the newest entry, the log lists [e] before the [older]
    ones, and the consumer polls it [S k] times before the next entry
    arrives. *)
Fixpoint observe (older : list Operation) (es : list (Operation * nat))
  : list (result (list Operation)) :=
  match es with
  | [] => []
  | (e, k) :: rest =>
      repeat (Ok (e :: older)) (S k) ++ observe (e :: older) rest
  end.

(** The values of the produced entries, in order. *)
Definition values (es : list (Operation * nat)) : list bytes :=
  map (fun p => GetValue (fst p)) es.

(** The first value of the sequence is the nil slice. *)
Definition starts_with_nil (l : list bytes) : bool :=
  match l with
  | None :: _ => true
  | _ => false
  end.

(** The polls of an empty log. *)
Definition idle_polls (n : nat) : list (result (list Operation)) :=
  repeat (Ok []) n.

Definition is_err {A : Type} (r : result A) : bool :=
  match r with
  | Err _ => true
  | Ok _ => false
  end.

(** The call to the log store that the event's iteration makes, if it
    makes one, returns an error. *)
Definition call_fails (e : event) (d : daemon) : bool :=
  match e with
  | PubIter i => if due i (pub_st d) then is_err (Daemon.add_result i) else true
  | SubIter r _ => is_err r
  | _ => true
  end.

(** Along the events [evs] from [d], every call to the log store made
    while the context is cancelled returns an error. *)
Fixpoint fails_once_cancelled (evs : list event) (d : daemon) : bool :=
  match evs with
  | [] => true
  | e :: rest =>
      match ctx d with
      | Cancelled => call_fails e d
      | _ => true
      end && fails_once_cancelled rest (step e d)
  end.

Definition with_ctx (c : lifecycle) (d : daemon) : daemon :=
  {| ctx := c; proc := proc d;
     pub_phase := pub_phase d; pub_st := pub_st d;
     sub_phase := sub_phase d; sub_st := sub_st d;
     file_opens := file_opens d; file_closes := file_closes d;
     cfg_loads := cfg_loads d;
     cfg_storeaddress := cfg_storeaddress d; cfg_writes := cfg_writes d |}.

(** The process is lost to a panic. *)
Definition fatal (q : process) : bool :=
  match q with
  | Dying _ | Crashed _ => true
  | _ => false
  end.

(** The process has not ended. *)
Definition live (q : process) : bool :=
  match q with
  | Alive | Dying _ => true
  | _ => false
  end.

Definition B (s : string) : list byte := list_byte_of_string s.

(** A log entry whose value is the non-nil slice of the bytes of [s]. *)
Definition entry (s : string) : Operation := {| GetValue := Some (B s) |}.

(** A setup in which every call succeeds. *)
Definition setup_ok : setup_env :=
  {| config_exists := Ok tt;
     ipfs_api := Ok tt;
     new_orbitdb := Ok tt;
     db_log := Ok "/orbitdb/zdpu/event"%string;
     write_config := Ok tt |}.

(** A producer iteration at time [t] in which zerolog emits the line
    "{}" and [Add] returns [r]. *)
Definition whisper_at (t : Z) (r : result unit) : pub_input :=
  {| now := t; whisper := B "{}" ++ [LF]; Daemon.add_result := r |}.

(** What the consumer reads of the result of a [List] call: the error, or
    the value of the newest entry if there is one. *)
Definition newest (r : result (list Operation)) : result (option bytes) :=
  match r with
  | Err e => Err e
  | Ok [] => Ok None
  | Ok (o :: _) => Ok (Some (GetValue o))
  end.

(** The iterations of the producer that call [Add], [last] being the last
    trigger time before them: those at which thirty seconds have elapsed,
    up to the first whose [Add] fails. *)
Fixpoint triggered (last : Z) (ins : list pub_input) : list pub_input :=
  match ins with
  | [] => []
  | i :: rest =>
      if (30 <=? sub64 (now i) last)%Z then
        i :: match Daemon.add_result i with
             | Ok _ => triggered (now i) rest
             | Err _ => []
             end
      else triggered last rest
  end.

(** The call of [Add] that an iteration makes when it makes one: the line
    logged in it, and whether [Add] took it. *)
Definition add_call (i : pub_input) : list byte * bool :=
  (whisper i, negb (is_err (Daemon.add_result i))).

(** A clock reading far from the ends of int64. *)
Definition in_range (t : Z) : Prop := (- 2 ^ 62 <= t < 2 ^ 62)%Z.

(** A goroutine of the daemon is dead. *)
Definition any_dead (d : daemon) : bool :=
  match pub_phase d, sub_phase d with
  | Dead, _ | _, Dead => true
  | _, _ => false
  end.

Definition is_cancelled (c : lifecycle) : bool :=
  match c with
  | Cancelled => true
  | _ => false
  end.

(** The state of the sink file handle that goes with each phase of the
    consumer: not opened before the loop, open in the loop, and closed as
    often as opened once the consumer is dead. *)
Definition file_handle_ok (d : daemon) : Prop :=
  match sub_phase d with
  | Starting => file_opens d = 0 /\ file_closes d = 0
  | Looping => file_opens d = 1 /\ file_closes d = 0
  | Dead => file_closes d = file_opens d /\ file_opens d <= 1
  end.

(** Case analysis of one event of the process. *)
Ltac unfold_step :=
  unfold step, pub_step, open_step, sub_step, with_proc, doomed.

Ltac split_step d e :=
  unfold_step;
  destruct (proc d) eqn:?; destruct e as [i|r|r w| |];
  try destruct (pub_phase d) eqn:?; try destruct (sub_phase d) eqn:?;
  try destruct (publish_iter i (pub_st d)) eqn:?;
  try destruct (subscribe_iter r w (sub_st d)) eqn:?;
  try destruct r;
  cbn [ctx proc pub_phase pub_st sub_phase sub_st file_opens file_closes
       cfg_loads cfg_storeaddress cfg_writes] in *.

(** ** Properties *)

(** *** Byte slices, trimming and printing *)

Lemma list_byte_eqb_eq (a b : list byte) :
  list_byte_eqb a b = true <-> a = b.
Proof.
  revert b; induction a as [|x a IH]; intros [|y b]; simpl;
    try (split; [discriminate | congruence]); try tauto.
  rewrite andb_true_iff, IH. split.
  - intros [H1 H2]. apply Byte.byte_dec_bl in H1. congruence.
  - intros H; inversion H; subst. split; [apply Byte.byte_dec_lb|]; reflexivity.
Qed.

Lemma DeepEqual_eq (a b : bytes) : DeepEqual a b = true <-> a = b.
Proof.
  destruct a as [x|], b as [y|]; simpl;
    try (split; [discriminate | congruence]); try tauto.
  rewrite list_byte_eqb_eq. split; congruence.
Qed.

Lemma DeepEqual_refl (a : bytes) : DeepEqual a a = true.
Proof. apply DeepEqual_eq; reflexivity. Qed.

Lemma DeepEqual_neq (a b : bytes) : DeepEqual a b = false <-> a <> b.
Proof.
  split.
  - intros H E. apply DeepEqual_eq in E. congruence.
  - intros H. destruct (DeepEqual a b) eqn:E; [|reflexivity].
    apply DeepEqual_eq in E. contradiction.
Qed.

Lemma DeepEqual_sym (a b : bytes) : DeepEqual a b = DeepEqual b a.
Proof.
  destruct (DeepEqual a b) eqn:E.
  - apply DeepEqual_eq in E; subst. symmetry; apply DeepEqual_refl.
  - symmetry. apply DeepEqual_neq. apply DeepEqual_neq in E. congruence.
Qed.

Lemma drop_leading_split (c : byte) (r : list byte) :
  exists n, r = repeat c n ++ drop_leading c r.
Proof.
  induction r as [|b r [n IH]]; simpl.
  - exists 0; reflexivity.
  - destruct (Byte.eqb b c) eqn:E.
    + apply Byte.byte_dec_bl in E; subst b.
      exists (S n); simpl; congruence.
    + exists 0; reflexivity.
Qed.

Lemma drop_leading_head (c : byte) (r : list byte) :
  match drop_leading c r with
  | [] => True
  | b :: _ => b <> c
  end.
Proof.
  induction r as [|b r IH]; simpl; [exact I|].
  destruct (Byte.eqb b c) eqn:E; [exact IH|].
  simpl. apply Byte.eqb_false; exact E.
Qed.

Lemma rev_repeat {A : Type} (x : A) (n : nat) : rev (repeat x n) = repeat x n.
Proof.
  induction n as [|n IH]; simpl; [reflexivity|].
  rewrite IH. clear IH. induction n as [|n IH]; simpl; [reflexivity|].
  rewrite IH; reflexivity.
Qed.

(** [trimRightByte] removes a run of [c] at the end, and only that. *)
Lemma trimRightByte_split (s : list byte) (c : byte) :
  exists n, s = trimRightByte s c ++ repeat c n.
Proof.
  unfold trimRightByte.
  destruct (drop_leading_split c (rev s)) as [n H].
  exists n.
  rewrite <- (rev_involutive s) at 1. rewrite H at 1.
  rewrite rev_app_distr, rev_repeat. reflexivity.
Qed.

(** What [trimRightByte] returns does not end with [c]. *)
Lemma trimRightByte_end (s : list byte) (c : byte) :
  ends_with c (trimRightByte s c) = false.
Proof.
  unfold ends_with, trimRightByte. rewrite rev_involutive.
  pose proof (drop_leading_head c (rev s)) as H.
  destruct (drop_leading c (rev s)) as [|b r]; [reflexivity|].
  destruct (Byte.eqb b c) eqn:E; [|reflexivity].
  apply Byte.byte_dec_bl in E. contradiction.
Qed.

Lemma TrimRight_LF (s : list byte) : TrimRight s [LF] = trimRightByte s LF.
Proof. destruct s; reflexivity. Qed.

Lemma ends_with_snoc (c : byte) (s : list byte) : ends_with c (s ++ [c]) = true.
Proof.
  unfold ends_with. rewrite rev_app_distr. simpl. apply Byte.byte_dec_lb; reflexivity.
Qed.

(** [Println] writes its operand and one newline. *)
Lemma Println_eq (s : list byte) : Println s = s ++ [LF].
Proof.
  unfold Println, Logger_Output, Sprintln. rewrite ends_with_snoc. reflexivity.
Qed.

Lemma sink_line_eq (v : bytes) :
  sink_line v = trimRightByte (string_of v) LF ++ [LF].
Proof. unfold sink_line. rewrite Println_eq, TrimRight_LF. reflexivity. Qed.

(** *** The consumer loop *)

Lemma app_singleton_neq {A : Type} (l : list A) (x : A) : l ++ [x] <> l.
Proof.
  intros H. apply (f_equal (@List.length A)) in H.
  rewrite length_app in H. simpl in H. lia.
Qed.

Lemma last_default {A : Type} (l : list A) :
  forall y d1 d2 : A, last (y :: l) d1 = last (y :: l) d2.
Proof.
  induction l as [|z l IH]; intros y d1 d2; [reflexivity|].
  change (last (z :: l) d1 = last (z :: l) d2). apply IH.
Qed.

Lemma last_cons {A : Type} (x d : A) (l : list A) :
  last l x = last (x :: l) d.
Proof.
  destruct l as [|y l]; [reflexivity|].
  change (last (y :: l) x = last (y :: l) d). apply last_default.
Qed.

(** A successful poll, by cases on the list and on the comparison. *)
Lemma subscribe_iter_Ok (op : list Operation) (w : write_result)
      (st : sub_state) :
  subscribe_iter (Ok op) w st =
  Next match op with
       | [] => st
       | o :: _ =>
           if DeepEqual (GetValue o) (lastValue st) then st
           else {| lastValue := GetValue o;
                   sink := sink st ++ [(sink_line (GetValue o), w)] |}
       end.
Proof.
  destruct op as [|o rest]; simpl; [reflexivity|].
  destruct (DeepEqual (GetValue o) (lastValue st)); reflexivity.
Qed.

(** The accepted values do not depend on what becomes of the writes. *)
Lemma attempts_accepted (polls : list poll) :
  forall last, map fst (attempts last polls) = accepted last (map fst polls).
Proof.
  induction polls as [|[r w] polls IH]; intros last; [reflexivity|].
  destruct r as [[|o rest]|e]; cbn [attempts accepted map fst];
    [apply IH| |reflexivity].
  destruct (DeepEqual (GetValue o) last); [apply IH|].
  cbn [map fst]. rewrite IH. reflexivity.
Qed.

(** The [Write] calls after the loop are those before it followed by one
    call for each accepted value, and [lastValue] is the last accepted
    value. *)
Lemma subscribe_loop_attempts (polls : list poll) :
  forall st,
    sink (end_state (subscribe_loop polls st)) =
      sink st ++ map write_call (attempts (lastValue st) polls)
    /\ lastValue (end_state (subscribe_loop polls st)) =
      last (accepted (lastValue st) (map fst polls)) (lastValue st).
Proof.
  unfold subscribe_loop.
  induction polls as [|[r w] polls IH]; intros st.
  - simpl. rewrite app_nil_r. split; reflexivity.
  - destruct r as [op|e].
    + cbn [for_loop fst snd]. rewrite subscribe_iter_Ok.
      destruct op as [|o rest]; cbn [attempts accepted map fst].
      * apply IH.
      * destruct (DeepEqual (GetValue o) (lastValue st)) eqn:E.
        -- apply IH.
        -- specialize (IH {| lastValue := GetValue o;
                             sink := sink st ++ [(sink_line (GetValue o), w)] |}).
           cbn [lastValue sink] in IH. destruct IH as [IH1 IH2].
           split.
           ++ rewrite IH1, <- app_assoc. reflexivity.
           ++ rewrite IH2. apply last_cons.
    + simpl. rewrite app_nil_r. split; reflexivity.
Qed.

(** The buffers handed to [Write] are the lines of the accepted values. *)
Lemma subscribe_loop_lines (polls : list poll) (st : sub_state) :
  map fst (sink (end_state (subscribe_loop polls st))) =
    map fst (sink st)
      ++ map sink_line (accepted (lastValue st) (map fst polls)).
Proof.
  destruct (subscribe_loop_attempts polls st) as [H _].
  rewrite H, map_app, <- attempts_accepted, !map_map. reflexivity.
Qed.

Lemma attempts_written (polls : list poll) :
  Forall (fun p => snd p = Written) polls ->
  forall last, Forall (fun a => snd a = Written) (attempts last polls).
Proof.
  induction 1 as [|[r w] polls Hw Hf IH]; intros last; [constructor|].
  destruct r as [[|o rest]|e]; cbn [attempts]; [apply IH| |constructor].
  destruct (DeepEqual (GetValue o) last); [apply IH|].
  constructor; [exact Hw | apply IH].
Qed.

Lemma landed_written (l : list (bytes * write_result)) :
  Forall (fun a => snd a = Written) l ->
  List.concat (map (fun c => landed (snd c) (fst c)) (map write_call l)) =
    List.concat (map sink_line (map fst l)).
Proof.
  induction 1 as [|[v w] l Hw Hf IH]; [reflexivity|].
  cbn [map write_call fst snd List.concat] in *. rewrite Hw, IH. reflexivity.
Qed.

(** When every [Write] succeeds, the file gains the lines of the accepted
    values. *)
Lemma subscribe_loop_file (polls : list poll) (st : sub_state)
      (before : list byte) :
  Forall (fun p => snd p = Written) polls ->
  file_content before (end_state (subscribe_loop polls st)) =
    file_content before st
      ++ List.concat (map sink_line (accepted (lastValue st) (map fst polls))).
Proof.
  intros H. unfold file_content.
  destruct (subscribe_loop_attempts polls st) as [E _].
  rewrite E, map_app, concat_app, landed_written, attempts_accepted, app_assoc
    by (apply attempts_written; exact H).
  reflexivity.
Qed.

Lemma all_written_written (rs : list (result (list Operation))) :
  Forall (fun p => snd p = Written) (all_written rs)
  /\ map fst (all_written rs) = rs.
Proof.
  unfold all_written. split.
  - apply Forall_forall. intros p Hp. apply in_map_iff in Hp.
    destruct Hp as (r & <- & _). reflexivity.
  - rewrite map_map. apply map_id.
Qed.

(** No accepted value equals the one accepted just before it, nor does the
    first equal the value last seen before the polls. *)
Lemma accepted_no_adjacent (polls : list (result (list Operation))) :
  forall prev, adjacent_equal DeepEqual (prev :: accepted prev polls) = false.
Proof.
  induction polls as [|r polls IH]; intros prev; [reflexivity|].
  destruct r as [[|o rest]|e]; cbn [accepted]; [apply IH| |reflexivity].
  destruct (DeepEqual (GetValue o) prev) eqn:E; [apply IH|].
  specialize (IH (GetValue o)).
  cbn [adjacent_equal] in *. rewrite DeepEqual_sym, E. exact IH.
Qed.

Lemma adjacent_equal_tail {A : Type} (eqb : A -> A -> bool) (x : A) (l : list A) :
  adjacent_equal eqb (x :: l) = false -> adjacent_equal eqb l = false.
Proof.
  destruct l as [|y l]; [reflexivity|].
  cbn [adjacent_equal]. intros H. apply orb_false_iff in H. apply H.
Qed.

(** C1, as the code has it: over any polls, the buffers handed to the
    sink's [Write] are the lines of the accepted log values, in order, and
    no accepted value is byte-identical ([reflect.DeepEqual]) to the one
    accepted just before it; when every [Write] succeeds the file gains
    exactly those lines; a poll of a non-empty list makes no [Write] call
    exactly when the newest entry equals [lastValue], and otherwise the
    file gains what the [Write] of the line let through; and a value seen
    again after a different accepted value is handed to [Write] again. (The
    lines themselves are the values without their trailing newlines, so they
    may repeat.) *)
Theorem C1_adjacent_raw_values_differ :
  (forall polls,
      let st := end_state (subscribe_loop polls sub_init) in
      sink st = map write_call (attempts None polls)
      /\ map fst (sink st) = map sink_line (accepted None (map fst polls))
      /\ adjacent_equal DeepEqual (accepted None (map fst polls)) = false)
  /\ (forall polls before,
         Forall (fun p => snd p = Written) polls ->
         file_content before (end_state (subscribe_loop polls sub_init)) =
           before
             ++ List.concat (map sink_line (accepted None (map fst polls))))
  /\ (forall st o rest w,
         sink (end_state (subscribe_loop [(Ok (o :: rest), w)] st)) = sink st
         <-> DeepEqual (GetValue o) (lastValue st) = true)
  /\ (forall st o rest w before,
         DeepEqual (GetValue o) (lastValue st) = false ->
         file_content before
                      (end_state (subscribe_loop [(Ok (o :: rest), w)] st)) =
           file_content before st ++ landed w (sink_line (GetValue o)))
  /\ (forall st a b ra rb rc wa wb wc,
         DeepEqual (GetValue a) (lastValue st) = false ->
         DeepEqual (GetValue b) (GetValue a) = false ->
         sink (end_state (subscribe_loop
                            [(Ok (a :: ra), wa); (Ok (b :: rb), wb);
                             (Ok (a :: rc), wc)] st)) =
           sink st ++ [(sink_line (GetValue a), wa);
                       (sink_line (GetValue b), wb);
                       (sink_line (GetValue a), wc)]).
Proof.
  split; [|split; [|split; [|split]]].
  - intros polls st. split; [|split].
    + apply (subscribe_loop_attempts polls sub_init).
    + apply (subscribe_loop_lines polls sub_init).
    + apply (adjacent_equal_tail DeepEqual None). apply accepted_no_adjacent.
  - intros polls before H.
    rewrite (subscribe_loop_file polls sub_init before H).
    unfold file_content. cbn [sub_init sink lastValue map List.concat].
    rewrite app_nil_r. reflexivity.
  - intros st o rest w. unfold subscribe_loop. cbn [for_loop fst snd].
    rewrite subscribe_iter_Ok.
    destruct (DeepEqual (GetValue o) (lastValue st)) eqn:E; cbn [end_state sink].
    + tauto.
    + split; [|discriminate]. intros H. exfalso. exact (app_singleton_neq _ _ H).
  - intros st o rest w before E. unfold subscribe_loop. cbn [for_loop fst snd].
    rewrite subscribe_iter_Ok, E. unfold file_content. cbn [end_state sink].
    rewrite map_app, concat_app. cbn [map List.concat fst snd].
    rewrite app_nil_r, app_assoc. reflexivity.
  - intros st a b ra rb rc wa wb wc Ha Hb.
    destruct (subscribe_loop_attempts
                [(Ok (a :: ra), wa); (Ok (b :: rb), wb); (Ok (a :: rc), wc)] st)
      as [H _].
    rewrite H. cbn [attempts]. rewrite Ha, Hb.
    rewrite DeepEqual_sym, Hb. reflexivity.
Qed.

(** C1 as stated fails: the newest entry is "A" at one poll and "A" followed
    by a newline at the next; the two differ, both are accepted, both writes
    succeed, and the sink receives the line "A" twice in a row. *)
Lemma C1_counterexample :
  let polls :=
    all_written
      [Ok [{| GetValue := Some (B "A") |}];
       Ok [{| GetValue := Some (B "A" ++ [LF]) |};
           {| GetValue := Some (B "A") |}]] in
  let st := end_state (subscribe_loop polls sub_init) in
  sink st = [(B "A" ++ [LF], Written); (B "A" ++ [LF], Written)]
  /\ adjacent_equal list_byte_eqb (map fst (sink st)) = true
  /\ file_content [] st = B "A" ++ [LF] ++ B "A" ++ [LF].
Proof. vm_compute. repeat split. Qed.

(** *** The sink against the produced sequence *)

Lemma accepted_idle (n : nat) (last : bytes) (rest : list (result (list Operation))) :
  accepted last (idle_polls n ++ rest) = accepted last rest.
Proof. induction n as [|n IH]; simpl; [reflexivity|exact IH]. Qed.

(** Polling again a list whose newest entry was just seen accepts nothing. *)
Lemma accepted_seen (op : list Operation) (n : nat) (last : bytes)
      (rest : list (result (list Operation))) :
  match op with
  | [] => true
  | o :: _ => DeepEqual (GetValue o) last
  end = true ->
  accepted last (repeat (Ok op) n ++ rest) = accepted last rest.
Proof.
  intros H. induction n as [|n IH]; [reflexivity|].
  simpl. destruct op as [|o tl]; [exact IH|]. rewrite H. exact IH.
Qed.

Lemma accepted_observe (es : list (Operation * nat)) :
  forall older last,
    accepted last (observe older es) = dedup_after last (values es).
Proof.
  induction es as [|[e k] es IH]; intros older last; [reflexivity|].
  cbn [observe values map fst dedup_after]. fold (values es).
  cbn [repeat app accepted].
  destruct (DeepEqual (GetValue e) last) eqn:E.
  - rewrite accepted_seen by exact E. apply IH.
  - f_equal. rewrite accepted_seen by apply DeepEqual_refl. apply IH.
Qed.

Lemma dedup_after_no_adjacent (l : list bytes) :
  forall prev, adjacent_equal DeepEqual (prev :: dedup_after prev l) = false.
Proof.
  induction l as [|x l IH]; intros prev; [reflexivity|].
  cbn [dedup_after]. destruct (DeepEqual x prev) eqn:E; [apply IH|].
  specialize (IH x). cbn [adjacent_equal] in *. rewrite DeepEqual_sym, E. exact IH.
Qed.

(** The collapse has no two equal neighbours. *)
Lemma collapse_no_adjacent (l : list bytes) :
  adjacent_equal DeepEqual (collapse l) = false.
Proof. destruct l as [|x l]; [reflexivity|]. apply dedup_after_no_adjacent. Qed.

(** It removes nothing from a sequence that has none. *)
Lemma collapse_fixed (l : list bytes) :
  adjacent_equal DeepEqual l = false -> collapse l = l.
Proof.
  destruct l as [|x l]; [reflexivity|]. cbn [collapse]. intros H. f_equal.
  revert x H; induction l as [|y l IH]; intros x H; [reflexivity|].
  cbn [adjacent_equal] in H. apply orb_false_iff in H. destruct H as [H1 H2].
  cbn [dedup_after]. rewrite DeepEqual_sym, H1. f_equal. apply IH. exact H2.
Qed.

Lemma dedup_after_nil_collapse (l : list bytes) :
  starts_with_nil l = false -> dedup_after None l = collapse l.
Proof.
  destruct l as [|[x|] l]; [reflexivity|reflexivity|discriminate].
Qed.

(** C2, as the code has it: when the consumer sees every produced entry at
    least once and the first entry's value is not the nil slice (which
    equals the initial [lastValue] and is skipped), the lines handed to the
    sink's [Write] are exactly the maximal collapse of the produced values
    under equality of neighbours, one line each; and when every one of
    those writes succeeds, the file holds them after whatever it held
    before. *)
Theorem C2_sink_is_collapse (es : list (Operation * nat)) (idle : nat)
        (before : list byte) (polls : list poll) :
  starts_with_nil (values es) = false ->
  map fst polls = idle_polls idle ++ observe [] es ->
  let st := end_state (subscribe_loop polls sub_init) in
  map fst (sink st) = map sink_line (collapse (values es))
  /\ (Forall (fun p => snd p = Written) polls ->
      file_content before st =
        before ++ List.concat (map sink_line (collapse (values es)))).
Proof.
  intros H Hp st.
  assert (E : accepted None (map fst polls) = collapse (values es)).
  { rewrite Hp, accepted_idle, accepted_observe.
    apply dedup_after_nil_collapse. exact H. }
  subst st. split.
  - rewrite subscribe_loop_lines. cbn [sub_init sink lastValue map app].
    rewrite E. reflexivity.
  - intros Hw. rewrite (subscribe_loop_file polls sub_init before Hw).
    unfold file_content. cbn [sub_init sink lastValue map List.concat].
    rewrite app_nil_r, E. reflexivity.
Qed.

(** The values "A", "A", "B", "B", "B", "A", each polled one to three
    times, every write succeeding, leave the three lines "A", "B", "A". *)
Lemma C2_sink_is_collapse_witness :
  let es := [(entry "A", 0); (entry "A", 1); (entry "B", 0); (entry "B", 2);
             (entry "B", 0); (entry "A", 0)] in
  let polls := all_written (idle_polls 2 ++ observe [] es) in
  file_content [] (end_state (subscribe_loop polls sub_init)) =
    B "A" ++ [LF] ++ B "B" ++ [LF] ++ B "A" ++ [LF].
Proof.
  intros es polls.
  rewrite (proj2 (C2_sink_is_collapse es 2 [] polls eq_refl eq_refl)).
  - reflexivity.
  - apply (proj1 (all_written_written (idle_polls 2 ++ observe [] es))).
Defined.

(** C2 as stated fails, in three ways. The only produced entry has the nil
    slice as its value: the consumer polls it, finds it equal to the initial
    [lastValue] and writes nothing, while the collapse of the sequence has
    one element, which is one (empty) line. The only produced entry is "A",
    seen by the consumer, after which the daemon is stopped and started
    again: the new consumer starts from the nil [lastValue], sees "A" and
    appends it to the same file, which then holds the line "A" twice, while
    the collapse of the sequence is the one line "A". And the entries "A"
    and "B" are each seen once but the write of "A" fails: the error is
    dropped, [lastValue] has moved on, and the file holds "B" alone. *)
Lemma C2_counterexample :
  let nil_entry := [({| GetValue := None |}, 0)] in
  let st := end_state (subscribe_loop (all_written (observe [] nil_entry))
                                      sub_init) in
  let es := [(entry "A", 0)] in
  let first_run := end_state (subscribe_loop (all_written (observe [] es))
                                             sub_init) in
  let second_run := end_state (subscribe_loop (all_written (observe [] es))
                                              sub_init) in
  let ab := [(entry "A", 0); (entry "B", 0)] in
  let lossy := [(Ok [entry "A"], WriteFailed 0 "no space left on device"%string);
                (Ok [entry "B"; entry "A"], Written)] in
  (sink st = []
   /\ map sink_line (collapse (values nil_entry)) = [[LF]])
  /\ (file_content (file_content [] first_run) second_run =
        B "A" ++ [LF] ++ B "A" ++ [LF]
      /\ List.concat (map sink_line (collapse (values es))) = B "A" ++ [LF])
  /\ (map fst lossy = observe [] ab
      /\ file_content [] (end_state (subscribe_loop lossy sub_init)) =
           B "B" ++ [LF]
      /\ List.concat (map sink_line (collapse (values ab))) =
           B "A" ++ [LF] ++ B "B" ++ [LF]).
Proof. vm_compute. repeat split. Qed.

(** *** One poll *)

(** C3, as the code has it: a poll whose list is non-empty and whose newest
    entry is not [reflect.DeepEqual] to [lastValue] (a nil and an empty
    slice are not) sets [lastValue] to the entry's raw bytes and hands the
    sink one buffer in one [Write], the entry's bytes without their
    trailing newline bytes followed by one newline; the file gains what that
    [Write] lets through, the whole line when it succeeds, and [lastValue]
    is set whether it does or not. A poll whose list is empty, or whose
    newest entry is [reflect.DeepEqual] to [lastValue], changes neither the
    sink nor [lastValue]. *)
Theorem C3_poll_cases (st : sub_state) (op : list Operation)
        (w : write_result) (before : list byte) :
  (forall o rest,
      op = o :: rest ->
      DeepEqual (GetValue o) (lastValue st) = false ->
      let line := trimRightByte (string_of (GetValue o)) LF in
      let st' := {| lastValue := GetValue o;
                    sink := sink st ++ [(line ++ [LF], w)] |} in
      subscribe_iter (Ok op) w st = Next st'
      /\ file_content before st' =
           file_content before st ++ landed w (line ++ [LF])
      /\ (w = Written ->
          file_content before st' = file_content before st ++ line ++ [LF])
      /\ ends_with LF line = false
      /\ exists n, string_of (GetValue o) = line ++ repeat LF n)
  /\ (op = [] \/
      (exists o rest, op = o :: rest
                      /\ DeepEqual (GetValue o) (lastValue st) = true) ->
      subscribe_iter (Ok op) w st = Next st).
Proof.
  split.
  - intros o rest -> H line st'.
    assert (F : file_content before st' =
                file_content before st ++ landed w (line ++ [LF])).
    { unfold file_content. subst st'. cbn [sink].
      rewrite map_app, concat_app. cbn [map List.concat fst snd].
      rewrite app_nil_r, app_assoc. reflexivity. }
    split; [|split; [|split; [|split]]].
    + rewrite subscribe_iter_Ok, H, sink_line_eq. reflexivity.
    + exact F.
    + intros ->. exact F.
    + apply trimRightByte_end.
    + apply trimRightByte_split.
  - intros [-> | (o & rest & -> & H)]; rewrite subscribe_iter_Ok; [reflexivity|].
    rewrite H. reflexivity.
Qed.

(** With "A" last seen: the entry "B" followed by two newlines is written
    as the line "B", and the entry "A" is skipped. *)
Lemma C3_poll_cases_witness :
  let st := {| lastValue := Some (B "A");
               sink := [(B "A" ++ [LF], Written)] |} in
  subscribe_iter (Ok [{| GetValue := Some (B "B" ++ [LF; LF]) |}; entry "A"])
                 Written st =
    Next {| lastValue := Some (B "B" ++ [LF; LF]);
            sink := [(B "A" ++ [LF], Written); (B "B" ++ [LF], Written)] |}
  /\ subscribe_iter (Ok [entry "A"]) Written st = Next st.
Proof.
  intros st. split.
  - exact (proj1 (proj1 (C3_poll_cases
                           st [{| GetValue := Some (B "B" ++ [LF; LF]) |}; entry "A"]
                           Written [])
                        {| GetValue := Some (B "B" ++ [LF; LF]) |} [entry "A"]
                        eq_refl eq_refl)).
  - apply (proj2 (C3_poll_cases st [entry "A"] Written [])).
    right. exists (entry "A"), []. split; reflexivity.
Defined.

(** C3 as stated fails, in two ways. The newest entry's value is the empty
    non-nil slice and [lastValue] is nil: their bytes are equal, there are
    none, yet [reflect.DeepEqual] tells them apart and the poll writes an
    empty line and moves [lastValue]. And the newest entry "A" differs from
    [lastValue] but the [Write] fails: [lastValue], set first, is "A", and
    the file has not gained the line. *)
Lemma C3_counterexample :
  let empty := {| GetValue := Some [] |} in
  let failed := WriteFailed 0 "no space left on device"%string in
  (string_of (GetValue empty) = string_of (lastValue sub_init)
   /\ subscribe_iter (Ok [empty]) Written sub_init =
        Next {| lastValue := Some []; sink := [([LF], Written)] |})
  /\ (subscribe_iter (Ok [entry "A"]) failed sub_init =
        Next {| lastValue := Some (B "A");
                sink := [(B "A" ++ [LF], failed)] |}
      /\ file_content []
                      {| lastValue := Some (B "A");
                         sink := [(B "A" ++ [LF], failed)] |} = []).
Proof. vm_compute. repeat split. Qed.

(** An iteration that does not panic either leaves the consumer's state as
    it was, or sets [lastValue], to a value that differs from the previous
    one, and hands its line to [Write]. *)
Lemma subscribe_iter_together (r : result (list Operation)) (w : write_result)
      (st st' : sub_state) :
  subscribe_iter r w st = Next st' ->
  st' = st
  \/ (lastValue st' <> lastValue st
      /\ sink st' = sink st ++ [(sink_line (lastValue st'), w)]).
Proof.
  destruct r as [op|e]; [|discriminate].
  rewrite subscribe_iter_Ok. intros H. injection H as <-.
  destruct op as [|o rest]; [left; reflexivity|].
  destruct (DeepEqual (GetValue o) (lastValue st)) eqn:E; [left; reflexivity|].
  right. cbn [lastValue sink]. split; [|reflexivity].
  apply DeepEqual_neq. exact E.
Qed.

Lemma attempts_last (l : list (bytes * write_result)) :
  l <> [] ->
  exists front w,
    map write_call l = map write_call front ++ [(sink_line (last (map fst l) None), w)].
Proof.
  intros H. destruct (exists_last H) as (front & [v w] & ->).
  exists front, w. rewrite !map_app. cbn [map fst]. rewrite last_last.
  reflexivity.
Qed.

(** C10, as the code has it: once the consumer has made a [Write] on the
    sink, [lastValue] is the raw value of the entry accepted last, and the
    last buffer handed to [Write] is that value without its trailing
    newlines, followed by the newline that ends the line; when that [Write]
    succeeded, the sink file ends with the same bytes. An iteration that
    changes [lastValue] is the one that hands the line to [Write], and no
    other does; whether the line reaches the file is not checked. *)
Theorem C10_last_seen_is_sink_tail :
  (forall polls before,
      let st := end_state (subscribe_loop polls sub_init) in
      sink st <> [] ->
      accepted None (map fst polls) <> []
      /\ lastValue st = last (accepted None (map fst polls)) None
      /\ exists front w,
          sink st =
            front ++ [(trimRightByte (string_of (lastValue st)) LF ++ [LF], w)]
          /\ (w = Written ->
              file_content before st =
                (before
                   ++ List.concat (map (fun c => landed (snd c) (fst c)) front))
                  ++ trimRightByte (string_of (lastValue st)) LF ++ [LF]))
  /\ (forall r w st st',
         subscribe_iter r w st = Next st' ->
         (lastValue st' = lastValue st /\ sink st' = sink st)
         \/ (lastValue st' <> lastValue st
             /\ sink st' = sink st ++ [(sink_line (lastValue st'), w)])).
Proof.
  split.
  - intros polls before st Hne.
    destruct (subscribe_loop_attempts polls sub_init) as [Hs Hl].
    fold st in Hs, Hl. cbn [sub_init sink lastValue app] in Hs, Hl.
    assert (Ha : attempts None polls <> []).
    { intros E. rewrite E in Hs. exact (Hne Hs). }
    split.
    { rewrite <- attempts_accepted. intros E.
      apply map_eq_nil in E. exact (Ha E). }
    split; [exact Hl|].
    destruct (attempts_last _ Ha) as (front & w & Hf).
    rewrite attempts_accepted, <- Hl, sink_line_eq in Hf.
    exists (map write_call front), w.
    assert (E : sink st =
                map write_call front
                    ++ [(trimRightByte (string_of (lastValue st)) LF ++ [LF], w)])
      by (rewrite Hs; exact Hf).
    split; [exact E|].
    intros ->. unfold file_content. rewrite E, map_app, concat_app.
    cbn [map List.concat fst snd landed].
    rewrite app_nil_r, app_assoc. reflexivity.
  - intros r w st st' H.
    destruct (subscribe_iter_together r w st st' H) as [-> | H'];
      [left; split; reflexivity | right; exact H'].
Qed.

(** After the entries "A" (twice) and then "B" followed by a newline, every
    write succeeding, the last value seen is the raw "B" with its newline
    and the last buffer written is the line "B". *)
Lemma C10_last_seen_is_sink_tail_witness :
  let polls := all_written
                 [Ok [entry "A"]; Ok [entry "A"];
                  Ok [{| GetValue := Some (B "B" ++ [LF]) |}; entry "A"]] in
  let st := end_state (subscribe_loop polls sub_init) in
  lastValue st = Some (B "B" ++ [LF])
  /\ exists front w, sink st = front ++ [(B "B" ++ [LF], w)].
Proof.
  intros polls st. subst st.
  assert (Hne : sink (end_state (subscribe_loop polls sub_init)) <> [])
    by (vm_compute; discriminate).
  destruct (proj1 C10_last_seen_is_sink_tail polls [] Hne)
    as (_ & Hl & front & w & Hf & _).
  split.
  - rewrite Hl. reflexivity.
  - exists front, w. rewrite Hf. reflexivity.
Defined.

(** C10 as stated fails: the line "A" is written, then the entry "B" is
    accepted but its [Write] fails. [lastValue] is "B", while the file still
    ends with the line "A". *)
Lemma C10_counterexample :
  let polls := [(Ok [entry "A"], Written);
                (Ok [entry "B"; entry "A"],
                 WriteFailed 0 "no space left on device"%string)] in
  let st := end_state (subscribe_loop polls sub_init) in
  lastValue st = Some (B "B")
  /\ file_content [] st = B "A" ++ [LF].
Proof. vm_compute. repeat split. Qed.

(** *** The producer loop *)

Lemma appended_failed (st : pub_state) (t : Z) (b b' : list byte) :
  appended {| lastTriggerTime := t; logbuf := b;
              adds := adds st ++ [(b', false)] |} = appended st.
Proof.
  unfold appended. cbn [adds]. rewrite filter_app. cbn [filter snd].
  rewrite app_nil_r. reflexivity.
Qed.

(** C4, as the code has it: [logbuf] is empty after every iteration that
    completes, which is the case when the interval has not elapsed and when
    the append succeeds; when the append fails the iteration panics before
    the reset and [logbuf] still holds the payload. *)
Theorem C4_logbuf_reset_when_iteration_completes (i : pub_input) (st : pub_state) :
  (forall st', publish_iter i st = Next st' -> logbuf st' = [])
  /\ (due i st = false \/ (exists u, Daemon.add_result i = Ok u) ->
      exists st', publish_iter i st = Next st' /\ logbuf st' = [])
  /\ (forall e,
         due i st = true -> Daemon.add_result i = Err e ->
         exists st',
           publish_iter i st = Panics (PutFailed e) st'
           /\ logbuf st' = logbuf st ++ whisper i).
Proof.
  unfold publish_iter. split; [|split].
  - intros st'. destruct (due i st), (Daemon.add_result i);
      intros H; try discriminate; injection H as <-; reflexivity.
  - intros [H | [u H]]; rewrite H.
    + eexists; split; reflexivity.
    + destruct (due i st); eexists; split; reflexivity.
  - intros e Hd He. rewrite Hd, He. eexists; split; reflexivity.
Qed.

(** An iteration thirty seconds after the last trigger, in which [Add]
    succeeds, ends with an empty buffer. *)
Lemma C4_logbuf_reset_when_iteration_completes_witness :
  exists st', publish_iter (whisper_at 30 (Ok tt)) (pub_init 0) = Next st'
              /\ logbuf st' = [].
Proof.
  apply (proj1 (proj2 (C4_logbuf_reset_when_iteration_completes
                         (whisper_at 30 (Ok tt)) (pub_init 0)))).
  right. exists tt. reflexivity.
Defined.

(** C4 as stated fails when the append fails: the iteration panics at the
    failed [Add] and the buffer keeps the line zerolog wrote into it. *)
Lemma C4_counterexample :
  publish_iter (whisper_at 30 (Err "context canceled"%string)) (pub_init 0) =
    Panics (PutFailed "context canceled"%string)
           {| lastTriggerTime := 30;
              logbuf := B "{}" ++ [LF];
              adds := [(B "{}" ++ [LF], false)] |}.
Proof. reflexivity. Qed.

(** *** The process *)

Lemma run_cons (e : event) (evs : list event) (d : daemon) :
  run (e :: evs) d = run evs (step e d).
Proof. reflexivity. Qed.

Lemma run_app (evs1 evs2 : list event) (d : daemon) :
  run (evs1 ++ evs2) d = run evs2 (run evs1 d).
Proof. unfold run. apply fold_left_app. Qed.

(** The context is never un-cancelled. *)
Lemma step_ctx_cancelled (e : event) (d : daemon) :
  ctx d = Cancelled -> ctx (step e d) = Cancelled.
Proof. intros H. split_step d e; auto. Qed.

(** A process lost to a panic stays lost. *)
Lemma step_fatal (e : event) (d : daemon) :
  fatal (proc d) = true -> fatal (proc (step e d)) = true.
Proof.
  intros H. split_step d e;
    repeat match goal with E : proc d = _ |- _ => rewrite E in *; clear E end;
    cbn [fatal] in *; auto; discriminate.
Qed.

(** A dead goroutine runs no further iteration. *)
Lemma step_pub_dead (e : event) (d : daemon) :
  pub_phase d = Dead ->
  pub_phase (step e d) = Dead /\ pub_st (step e d) = pub_st d.
Proof. intros H. split_step d e; auto; congruence. Qed.

Lemma step_sub_dead (e : event) (d : daemon) :
  sub_phase d = Dead ->
  sub_phase (step e d) = Dead /\ sub_st (step e d) = sub_st d.
Proof. intros H. split_step d e; auto; congruence. Qed.

Lemma run_after_pub_panic (evs : list event) :
  forall d,
    ctx d = Cancelled -> pub_phase d = Dead -> fatal (proc d) = true ->
    ctx (run evs d) = Cancelled /\ pub_phase (run evs d) = Dead
    /\ pub_st (run evs d) = pub_st d /\ fatal (proc (run evs d)) = true.
Proof.
  induction evs as [|e evs IH]; intros d Hc Hp Hf; [auto|].
  rewrite run_cons.
  destruct (step_pub_dead e d Hp) as [Hp' Hs].
  destruct (IH (step e d) (step_ctx_cancelled e d Hc) Hp' (step_fatal e d Hf))
    as (H1 & H2 & H3 & H4).
  rewrite H3, Hs. auto.
Qed.

Lemma run_after_sub_panic (evs : list event) :
  forall d,
    ctx d = Cancelled -> sub_phase d = Dead -> fatal (proc d) = true ->
    ctx (run evs d) = Cancelled /\ sub_phase (run evs d) = Dead
    /\ sub_st (run evs d) = sub_st d /\ fatal (proc (run evs d)) = true.
Proof.
  induction evs as [|e evs IH]; intros d Hc Hp Hf; [auto|].
  rewrite run_cons.
  destruct (step_sub_dead e d Hp) as [Hp' Hs].
  destruct (IH (step e d) (step_ctx_cancelled e d Hc) Hp' (step_fatal e d Hf))
    as (H1 & H2 & H3 & H4).
  rewrite H3, Hs. auto.
Qed.

(** The runtime ends a process lost to a panic. *)
Lemma runtime_exit_crashes (d : daemon) :
  fatal (proc d) = true -> exists p, proc (step RuntimeExit d) = Crashed p.
Proof.
  intros H. unfold step, with_proc.
  destruct (proc d) as [|p|c|p] eqn:E; cbn [fatal] in H; try discriminate;
    exists p; [reflexivity | exact E].
Qed.

Lemma live_not_ended (d : daemon) :
  live (proc d) = true -> proc d = Alive \/ exists p, proc d = Dying p.
Proof.
  destruct (proc d) as [|p|c|p]; cbn [live]; intros H; try discriminate;
    [left; reflexivity | right; exists p; reflexivity].
Qed.

(** C5: in a process that has not ended, when [Add] returns an error to the
    producer, or [List] to the consumer, the loop panics: its deferred
    [cancel()] cancels the context, the call is not made again (the failed
    [Add] is the last call logged), the goroutine is dead and runs no
    further iteration whatever happens next, and the process is lost to
    the panic: the runtime's exit leaves it crashed. *)
Theorem C5_call_error_is_fatal (d : daemon) :
  live (proc d) = true ->
  (forall i e,
      pub_phase d = Looping -> due i (pub_st d) = true ->
      Daemon.add_result i = Err e ->
      let d' := step (PubIter i) d in
      ctx d' = Cancelled /\ pub_phase d' = Dead /\ fatal (proc d') = true
      /\ adds (pub_st d') =
           adds (pub_st d) ++ [(logbuf (pub_st d) ++ whisper i, false)]
      /\ forall evs,
          ctx (run evs d') = Cancelled /\ pub_phase (run evs d') = Dead
          /\ pub_st (run evs d') = pub_st d'
          /\ fatal (proc (run evs d')) = true
          /\ exists p, proc (run (evs ++ [RuntimeExit]) d') = Crashed p)
  /\ (forall e w,
         sub_phase d = Looping ->
         let d' := step (SubIter (Err e) w) d in
         ctx d' = Cancelled /\ sub_phase d' = Dead /\ fatal (proc d') = true
         /\ sub_st d' = sub_st d
         /\ forall evs,
             ctx (run evs d') = Cancelled /\ sub_phase (run evs d') = Dead
             /\ sub_st (run evs d') = sub_st d'
             /\ fatal (proc (run evs d')) = true
             /\ exists p, proc (run (evs ++ [RuntimeExit]) d') = Crashed p).
Proof.
  intros Hlive. split.
  - intros i e Hp Hd He d'.
    assert (H : ctx d' = Cancelled /\ pub_phase d' = Dead /\ fatal (proc d') = true
                /\ adds (pub_st d') =
                     adds (pub_st d) ++ [(logbuf (pub_st d) ++ whisper i, false)]).
    { subst d'. unfold step, pub_step, publish_iter.
      rewrite Hp, Hd, He.
      destruct (live_not_ended d Hlive) as [E | [p E]]; rewrite E;
        cbn; auto. }
    destruct H as (H1 & H2 & H3 & H4). repeat (split; [assumption|]).
    intros evs.
    destruct (run_after_pub_panic evs d' H1 H2 H3) as (R1 & R2 & R3 & R4).
    repeat (split; [assumption|]).
    rewrite run_app. apply runtime_exit_crashes. exact R4.
  - intros e w Hp d'.
    assert (H : ctx d' = Cancelled /\ sub_phase d' = Dead /\ fatal (proc d') = true
                /\ sub_st d' = sub_st d).
    { subst d'. unfold step, sub_step. rewrite Hp.
      destruct (live_not_ended d Hlive) as [E | [p E]]; rewrite E;
        cbn; auto. }
    destruct H as (H1 & H2 & H3 & H4). repeat (split; [assumption|]).
    intros evs.
    destruct (run_after_sub_panic evs d' H1 H2 H3) as (R1 & R2 & R3 & R4).
    repeat (split; [assumption|]).
    rewrite run_app. apply runtime_exit_crashes. exact R4.
Qed.

(** With both loops running: a failed [List] cancels the context and kills
    the consumer, and the producer's failed [Add] does the same to it. *)
Lemma C5_call_error_is_fatal_witness :
  let d := daemon_cmd setup_ok 0 [SubOpen (Ok tt)] in
  ctx (step (SubIter (Err "context canceled"%string) Written) d) = Cancelled
  /\ pub_phase (step (PubIter (whisper_at 30 (Err "timeout"%string))) d) = Dead.
Proof.
  intros d. split.
  - exact (proj1 (proj2 (C5_call_error_is_fatal d eq_refl)
                    "context canceled"%string Written eq_refl)).
  - exact (proj1 (proj2 (proj1 (C5_call_error_is_fatal d eq_refl)
                           (whisper_at 30 (Err "timeout"%string)) "timeout"%string
                           eq_refl eq_refl eq_refl))).
Defined.

(** *** After cancellation *)

(** Neither loop reads the context: with any other lifecycle in place of
    the current one, an event leaves both goroutines in the same state. *)
Lemma loops_ignore_ctx (c : lifecycle) (e : event) (d : daemon) :
  pub_st (step e (with_ctx c d)) = pub_st (step e d)
  /\ sub_st (step e (with_ctx c d)) = sub_st (step e d).
Proof.
  unfold_step. unfold with_ctx.
  cbn [ctx proc pub_phase pub_st sub_phase sub_st file_opens file_closes
       cfg_loads cfg_storeaddress cfg_writes].
  destruct (proc d); destruct e as [i|r|r w| |];
    try destruct (pub_phase d); try destruct (sub_phase d);
    try destruct (publish_iter i (pub_st d));
    try destruct (subscribe_iter r w (sub_st d));
    try destruct r; split; reflexivity.
Qed.

(** With the context cancelled, an event whose call to the log store
    fails appends nothing to the log and writes nothing to the sink. *)
Lemma step_cancelled_call_fails (e : event) (d : daemon) :
  call_fails e d = true ->
  appended (pub_st (step e d)) = appended (pub_st d)
  /\ sink (sub_st (step e d)) = sink (sub_st d).
Proof.
  intros H. unfold_step.
  destruct (proc d); [|  |split; reflexivity|split; reflexivity];
    destruct e as [i|r|r w| |]; cbn [call_fails] in H;
    try (split; reflexivity).
  all: try (destruct (sub_phase d); [|destruct r| ]; cbn in *;
            try discriminate; split; reflexivity).
  all: try (destruct (sub_phase d); [destruct r| | ]; split; reflexivity).
  all: destruct (pub_phase d); try (split; reflexivity);
    unfold publish_iter; destruct (due i (pub_st d));
    [destruct (Daemon.add_result i); [discriminate|]|];
    cbn [pub_st sub_st]; split; try reflexivity; apply appended_failed.
Qed.

(** C6, as the code has it: the loops do not test the context; once it is
    cancelled, no entry is appended to the log and no line is written to
    the sink as long as every call to the log store made from then on
    returns an error (the calling loop then panics and stops). *)
Theorem C6_no_effect_after_cancel_when_calls_fail (evs : list event) :
  forall d,
    ctx d = Cancelled ->
    fails_once_cancelled evs d = true ->
    ctx (run evs d) = Cancelled
    /\ appended (pub_st (run evs d)) = appended (pub_st d)
    /\ sink (sub_st (run evs d)) = sink (sub_st d).
Proof.
  induction evs as [|e evs IH]; intros d Hc Hf; [auto|].
  rewrite run_cons. cbn [fails_once_cancelled] in Hf. rewrite Hc in Hf.
  apply andb_true_iff in Hf. destruct Hf as [He Hf].
  destruct (step_cancelled_call_fails e d He) as [Ha Hs].
  destruct (IH (step e d) (step_ctx_cancelled e d Hc) Hf) as (H1 & H2 & H3).
  rewrite H2, H3, Ha, Hs. auto.
Qed.

(** The producer's [Add] fails and cancels the context; the consumer's next
    [List] fails too: the sink keeps its one line and the log gains
    nothing. *)
Lemma C6_no_effect_after_cancel_when_calls_fail_witness :
  let d := daemon_cmd setup_ok 0
             [SubOpen (Ok tt); SubIter (Ok [entry "A"]) Written;
              PubIter (whisper_at 30 (Err "closed"%string))] in
  let d' := run [SubIter (Err "context canceled"%string) Written;
                 RuntimeExit] d in
  ctx d = Cancelled
  /\ appended (pub_st d') = []
  /\ sink (sub_st d') = [(B "A" ++ [LF], Written)].
Proof.
  intros d d'. split; [reflexivity|].
  destruct (C6_no_effect_after_cancel_when_calls_fail
              [SubIter (Err "context canceled"%string) Written; RuntimeExit] d
              eq_refl eq_refl) as (_ & Ha & Hs).
  fold d' in Ha, Hs. rewrite Ha, Hs. split; reflexivity.
Defined.

(** C6 as stated fails. The producer's [Add] fails: its deferred [cancel()]
    cancels the context. Before the runtime ends the process the consumer
    polls once more; [List] returns a new entry and the consumer, which
    tests nothing, writes it. Likewise, after the consumer's [List] failed
    and cancelled the context, the producer's next [Add], if it succeeds,
    appends. *)
Lemma C6_counterexample :
  let d0 := daemon_cmd setup_ok 0 [SubOpen (Ok tt)] in
  let d1 := step (PubIter (whisper_at 30 (Err "closed"%string))) d0 in
  let d2 := step (SubIter (Ok [entry "A"]) Written) d1 in
  let c1 := step (SubIter (Err "closed"%string) Written) d0 in
  let c2 := step (PubIter (whisper_at 30 (Ok tt))) c1 in
  (ctx d1 = Cancelled /\ sink (sub_st d1) = []
   /\ sink (sub_st d2) = [(B "A" ++ [LF], Written)])
  /\ (ctx c1 = Cancelled /\ appended (pub_st c1) = []
      /\ appended (pub_st c2) = [B "{}" ++ [LF]]).
Proof. vm_compute. repeat split. Qed.

(** *** The sink file handle *)

(** The handle is opened at most once and closed at most once, and it is
    closed only by a consumer that is dead. *)
Lemma step_file_handle (e : event) (d : daemon) :
  (sub_phase d = Starting -> file_opens d = 0 /\ file_closes d = 0) ->
  (sub_phase d = Looping -> file_opens d = 1 /\ file_closes d = 0) ->
  file_closes d <= file_opens d <= 1 ->
  (sub_phase (step e d) = Starting ->
   file_opens (step e d) = 0 /\ file_closes (step e d) = 0)
  /\ (sub_phase (step e d) = Looping ->
      file_opens (step e d) = 1 /\ file_closes (step e d) = 0)
  /\ file_closes (step e d) <= file_opens (step e d) <= 1.
Proof.
  intros H1 H2 H3. split_step d e; repeat split; intros; try discriminate;
    try lia;
    try (destruct (H1 eq_refl); lia); try (destruct (H2 eq_refl); lia);
    try (destruct H1; [congruence | lia]);
    try (destruct H2; [congruence | lia]).
Qed.

Lemma run_file_handle (env : setup_env) (t0 : Z) (evs : list event) :
  file_closes (daemon_cmd env t0 evs) <= file_opens (daemon_cmd env t0 evs) <= 1.
Proof.
  unfold daemon_cmd. destruct (PreRun env) as [d0|p d0] eqn:E.
  - assert (H : file_opens d0 = 0 /\ file_closes d0 = 0).
    { revert E. unfold PreRun.
      destruct (config_exists env), (ipfs_api env), (new_orbitdb env),
        (db_log env), (write_config env); intros E; inversion E; subst;
        split; reflexivity. }
    destruct H as [Ho Hc].
    assert (G : forall d,
               (sub_phase d = Starting -> file_opens d = 0 /\ file_closes d = 0) ->
               (sub_phase d = Looping -> file_opens d = 1 /\ file_closes d = 0) ->
               file_closes d <= file_opens d <= 1 ->
               file_closes (run evs d) <= file_opens (run evs d) <= 1).
    { induction evs as [|e evs IH]; intros d H1 H2 H3; [exact H3|].
      rewrite run_cons.
      destruct (step_file_handle e d H1 H2 H3) as (S1 & S2 & S3).
      apply IH; assumption. }
    apply G; cbn [Run_start sub_phase file_opens file_closes].
    + intros _. split; assumption.
    + discriminate.
    + lia.
  - revert E. unfold PreRun.
    destruct (config_exists env), (ipfs_api env), (new_orbitdb env),
      (db_log env), (write_config env); intros E; inversion E; subst;
      cbn; lia.
Qed.

(** C7 fails on the code. With the sink open: the interrupt makes [Run]
    return and the process exit with status 0, and [file.Close()], deferred
    in the goroutine of [subscribe], never runs; nor does it when
    [publish] panics and the process crashes. Only the consumer's own panic
    runs it. *)
Theorem C7_sink_left_open_on_interrupt :
  let d := daemon_cmd setup_ok 0
             [SubOpen (Ok tt); SubIter (Ok [entry "A"]) Written] in
  let interrupted := run [Sigint] d in
  let producer_failed :=
    run [PubIter (whisper_at 30 (Err "closed"%string)); RuntimeExit] d in
  let consumer_failed :=
    run [SubIter (Err "closed"%string) Written; RuntimeExit] d in
  (proc interrupted = Exited 0
   /\ file_opens interrupted = 1 /\ file_closes interrupted = 0)
  /\ (proc producer_failed = Crashed (PutFailed "closed"%string)
      /\ file_opens producer_failed = 1 /\ file_closes producer_failed = 0)
  /\ (proc consumer_failed = Crashed (ListFailed "closed"%string)
      /\ file_opens consumer_failed = 1 /\ file_closes consumer_failed = 1).
Proof. vm_compute. repeat split. Qed.

(** *** The configuration store *)



(** A [PreRun] that returns has set the resolved address and written the
    configuration once, the context running and no goroutine started. *)
Lemma PreRun_returns (env : setup_env) (d0 : daemon) :
  PreRun env = Next d0 ->
  ctx d0 = Running /\ pub_phase d0 = Starting /\ sub_phase d0 = Starting
  /\ cfg_writes d0 = 1
  /\ exists a, db_log env = Ok a /\ cfg_storeaddress d0 = Some a.
Proof.
  unfold PreRun.
  destruct (config_exists env); [|discriminate].
  destruct (ipfs_api env); [|discriminate].
  destruct (new_orbitdb env); [|discriminate].
  destruct (db_log env) as [address|]; [|discriminate].
  destruct (write_config env); [|discriminate].
  intros H; injection H as <-. cbn. repeat split.
  exists address. split; reflexivity.
Qed.









(** *** The single-goroutine loop *)

(** C9: when [Add] and [List] succeed, the iteration reads [op[0]] whatever
    the length of [op]: on an empty list it panics with an index out of
    range, and that is the only case in which it does; on a non-empty list
    it prints the newest entry and completes. *)
Theorem C9_first_element_unchecked (i : Combined.loop_input)
        (st : Combined.loop_state) (u : unit) (op : list Operation) :
  Combined.add_result i = Ok u ->
  Combined.list_result i = Ok op ->
  (op = [] ->
   exists st', Combined.loop_iter i st = Panics (IndexOutOfRange 0 0) st')
  /\ (forall o rest,
         op = o :: rest ->
         exists st',
           Combined.loop_iter i st = Next st'
           /\ Combined.stdout st' =
                Combined.stdout st ++ [string_of (GetValue o) ++ [LF]])
  /\ ((exists n len st',
          Combined.loop_iter i st = Panics (IndexOutOfRange n len) st')
      <-> op = []).
Proof.
  intros Ha Hl. unfold Combined.loop_iter. rewrite Ha, Hl.
  split; [|split].
  - intros ->. eexists; reflexivity.
  - intros o rest ->. eexists; split; reflexivity.
  - destruct op as [|o rest]; split.
    + reflexivity.
    + intros _. do 3 eexists; reflexivity.
    + intros (n & len & st' & H). discriminate.
    + discriminate.
Qed.

(** The append succeeded but the list came back empty: the iteration
    panics on [op[0]]. *)
Lemma C9_first_element_unchecked_witness :
  let i := {| Combined.name := B "node";
              Combined.now_string := B "2023-05-01";
              Combined.add_result := Ok tt;
              Combined.list_result := Ok [] |} in
  exists st',
    Combined.loop_iter i Combined.loop_init = Panics (IndexOutOfRange 0 0) st'.
Proof.
  intros i.
  exact (proj1 (C9_first_element_unchecked i Combined.loop_init tt []
                  eq_refl eq_refl) eq_refl).
Defined.

(** ** Further properties of the code *)

(** *** The line written for a value *)

Lemma drop_leading_repeat (c : byte) (n : nat) (r : list byte) :
  drop_leading c (repeat c n ++ r) = drop_leading c r.
Proof.
  induction n as [|n IH]; [reflexivity|].
  cbn [repeat app drop_leading].
  rewrite (Byte.byte_dec_lb (eq_refl c)). exact IH.
Qed.

Lemma trimRightByte_app_repeat (s : list byte) (c : byte) (n : nat) :
  trimRightByte (s ++ repeat c n) c = trimRightByte s c.
Proof.
  unfold trimRightByte.
  rewrite rev_app_distr, rev_repeat, drop_leading_repeat. reflexivity.
Qed.

Lemma trimRightByte_fixed (s : list byte) (c : byte) :
  ends_with c s = false -> trimRightByte s c = s.
Proof.
  unfold ends_with, trimRightByte. intros H.
  destruct (rev s) as [|b r] eqn:E.
  - cbn. rewrite <- (rev_involutive s), E. reflexivity.
  - cbn [drop_leading]. rewrite H, <- E. apply rev_involutive.
Qed.

Lemma repeat_swap {A : Type} (x : A) (n m : nat) :
  repeat x n ++ repeat x m = repeat x m ++ repeat x n.
Proof. rewrite <- !repeat_app, Nat.add_comm. reflexivity. Qed.

(** Two values give the same line of the sink exactly when they differ
    only in the number of their trailing newlines (the nil slice counting as
    the empty one). *)
Theorem X1_same_line_iff_same_up_to_newlines (v w : bytes) :
  sink_line v = sink_line w
  <-> exists n m,
      string_of v ++ repeat LF n = string_of w ++ repeat LF m.
Proof.
  rewrite !sink_line_eq. split.
  - intros H. apply app_inv_tail in H.
    destruct (trimRightByte_split (string_of v) LF) as [a Ha].
    destruct (trimRightByte_split (string_of w) LF) as [b Hb].
    exists b, a. rewrite Ha at 1. rewrite Hb at 1. rewrite H.
    rewrite <- !app_assoc. f_equal. apply repeat_swap.
  - intros (n & m & H). f_equal.
    rewrite <- (trimRightByte_app_repeat (string_of v) LF n), H.
    apply trimRightByte_app_repeat.
Qed.

(** A value is copied to the sink byte for byte exactly when it ends with
    one newline and no more, as the lines zerolog emits do. *)
Theorem X2_line_is_value_iff_one_newline (s : list byte) :
  sink_line (Some s) = s
  <-> exists body, s = body ++ [LF] /\ ends_with LF body = false.
Proof.
  rewrite sink_line_eq. cbn [string_of]. split.
  - intros H. exists (trimRightByte s LF). split.
    + symmetry. exact H.
    + apply trimRightByte_end.
  - intros (body & -> & H).
    change [LF] with (repeat LF 1) at 1.
    rewrite trimRightByte_app_repeat, trimRightByte_fixed by exact H.
    reflexivity.
Qed.

(** *** The consumer loop, further *)

(** An iteration of the consumer depends on the result of [List] only
    through the error or the newest entry's value. *)
Lemma subscribe_iter_newest (r r' : result (list Operation)) (w : write_result)
      (st : sub_state) :
  newest r = newest r' -> subscribe_iter r w st = subscribe_iter r' w st.
Proof.
  destruct r as [[|o l]|e], r' as [[|o' l']|e']; cbn [newest];
    intros H; try discriminate; try reflexivity.
  - injection H as H. cbn [subscribe_iter]. rewrite H. reflexivity.
  - injection H as H. rewrite H. reflexivity.
Qed.

(** Polling again what was just polled changes nothing, whatever would
    become of a write. *)
Lemma subscribe_iter_again (r : result (list Operation)) (w w' : write_result)
      (st st' : sub_state) :
  subscribe_iter r w st = Next st' -> subscribe_iter r w' st' = Next st'.
Proof.
  destruct r as [op|e]; [|discriminate].
  rewrite !subscribe_iter_Ok. intros H. injection H as <-.
  destruct op as [|o l]; [reflexivity|].
  destruct (DeepEqual (GetValue o) (lastValue st)) eqn:E.
  - rewrite E. reflexivity.
  - cbn [lastValue]. rewrite DeepEqual_refl. reflexivity.
Qed.

(** The consumer polls as fast as it can; however many times it gets the
    same answer from [List] in a row, the outcome is that of getting it
    once. *)
Theorem X3_repeated_poll_is_one_poll (r : poll) (n : nat) (rest : list poll)
        (st : sub_state) :
  subscribe_loop (repeat r (S n) ++ rest) st = subscribe_loop (r :: rest) st.
Proof.
  unfold subscribe_loop. revert st. induction n as [|n IH]; intros st;
    [reflexivity|].
  change (repeat r (S (S n)) ++ rest) with (r :: (repeat r (S n) ++ rest)).
  cbn [for_loop].
  destruct (subscribe_iter (fst r) (snd r) st) as [st'|p st'] eqn:E;
    [|reflexivity].
  rewrite IH. cbn [for_loop].
  rewrite (subscribe_iter_again (fst r) (snd r) (snd r) st st' E). reflexivity.
Qed.

(** The consumer reads only the newest entry of each list: whatever else
    the lists hold, polls with the same newest values (and the same errors),
    and the same fate of their writes, end in the same state. Entries that
    are never the newest at a poll leave no trace. *)
Theorem X4_only_newest_entry_matters (polls polls' : list poll)
        (st : sub_state) :
  map newest (map fst polls) = map newest (map fst polls') ->
  map snd polls = map snd polls' ->
  subscribe_loop polls st = subscribe_loop polls' st.
Proof.
  unfold subscribe_loop. revert polls' st.
  induction polls as [|[r w] polls IH]; intros [|[r' w'] polls'] st H Hw;
    try discriminate; [reflexivity|].
  cbn [map fst snd] in H, Hw. injection H as Hr H. injection Hw as <- Hw.
  cbn [for_loop fst snd]. rewrite (subscribe_iter_newest r r' w st Hr).
  destruct (subscribe_iter r' w st); [apply IH; assumption | reflexivity].
Qed.

(** Two entries arrive between two polls: the older one, "B", is in the
    list but is never written. *)
Lemma X4_only_newest_entry_matters_witness :
  file_content []
    (end_state (subscribe_loop
                  (all_written
                     [Ok [entry "A"]; Ok [entry "C"; entry "B"; entry "A"]])
                  sub_init)) =
    B "A" ++ [LF] ++ B "C" ++ [LF].
Proof.
  rewrite (X4_only_newest_entry_matters
             (all_written
                [Ok [entry "A"]; Ok [entry "C"; entry "B"; entry "A"]])
             (all_written [Ok [entry "A"]; Ok [entry "C"]])
             sub_init eq_refl eq_refl).
  reflexivity.
Defined.

Lemma attempts_from_polls (polls : list poll) :
  forall last,
    List.length (attempts last polls) <= List.length polls
    /\ Forall (fun a => exists p, In p polls
                                  /\ newest (fst p) = Ok (Some (fst a))
                                  /\ snd p = snd a)
              (attempts last polls).
Proof.
  induction polls as [|[r w] polls IH]; intros last.
  - split; [apply Nat.le_refl | constructor].
  - assert (W : forall l : list (bytes * write_result),
               Forall (fun a => exists p, In p polls
                                          /\ newest (fst p) = Ok (Some (fst a))
                                          /\ snd p = snd a) l ->
               Forall (fun a => exists p, In p ((r, w) :: polls)
                                          /\ newest (fst p) = Ok (Some (fst a))
                                          /\ snd p = snd a) l).
    { intros l Hl. eapply Forall_impl; [|exact Hl].
      intros a (p & Hin & Hn). exists p. split; [right; exact Hin | exact Hn]. }
    destruct r as [[|o l]|e]; cbn [attempts List.length].
    + destruct (IH last) as [H1 H2]. split; [lia | apply W; exact H2].
    + destruct (DeepEqual (GetValue o) last).
      * destruct (IH last) as [H1 H2]. split; [lia | apply W; exact H2].
      * destruct (IH (GetValue o)) as [H1 H2]. cbn [List.length].
        split; [lia|]. constructor.
        -- exists (Ok (o :: l), w). split; [left; reflexivity|].
           split; reflexivity.
        -- apply W; exact H2.
    + split; [lia | constructor].
Qed.

(** The sink only grows: whatever the polls, the [Write] calls made before
    them are still there, in place; the loop adds at most one call for each
    poll, and each added call has for buffer the trimmed newest value of
    one of the polls; the file is what it was, followed by what those
    writes let through. *)
Theorem X5_sink_is_append_only (polls : list poll) (st : sub_state) :
  exists added,
    sink (end_state (subscribe_loop polls st)) = sink st ++ map write_call added
    /\ List.length added <= List.length polls
    /\ Forall (fun a => exists p, In p polls
                                  /\ newest (fst p) = Ok (Some (fst a))
                                  /\ snd p = snd a) added
    /\ forall before,
        file_content before (end_state (subscribe_loop polls st)) =
          file_content before st
            ++ List.concat
                 (map (fun a => landed (snd a) (sink_line (fst a))) added).
Proof.
  exists (attempts (lastValue st) polls).
  destruct (subscribe_loop_attempts polls st) as [H _].
  destruct (attempts_from_polls polls (lastValue st)) as [H1 H2].
  repeat split; try assumption.
  intros before. unfold file_content.
  rewrite H, map_app, concat_app, app_assoc, map_map. reflexivity.
Qed.
(** *** The producer loop, further *)

Lemma wrap64_small (z : Z) :
  (- 2 ^ 63 <= z < 2 ^ 63)%Z -> wrap64 z = z.
Proof.
  intros H. unfold wrap64.
  change (2 ^ 63)%Z with 9223372036854775808%Z in *.
  change (2 ^ 64)%Z with 18446744073709551616%Z.
  rewrite Z.mod_small; lia.
Qed.

Lemma sub64_in_range (a b : Z) :
  in_range a -> in_range b -> sub64 a b = (a - b)%Z.
Proof.
  unfold in_range, sub64.
  change (2 ^ 62)%Z with 4611686018427387904%Z.
  intros Ha Hb. apply wrap64_small.
  change (2 ^ 63)%Z with 9223372036854775808%Z. lia.
Qed.

(** One iteration with clock readings in range: an [Add] call moves
    [lastTriggerTime] forward by thirty seconds at least, to the clock
    reading; without a call it stays. *)
Lemma publish_iter_trigger (i : pub_input) (st : pub_state) :
  in_range (lastTriggerTime st) -> in_range (now i) ->
  let st' := match publish_iter i st with
             | Next s => s
             | Panics _ s => s
             end in
  (adds st' = adds st /\ lastTriggerTime st' = lastTriggerTime st
   \/ (exists a, adds st' = adds st ++ [a])
      /\ lastTriggerTime st' = now i
      /\ (lastTriggerTime st + 30 <= now i)%Z).
Proof.
  intros Hl Hn. unfold publish_iter, due.
  rewrite (sub64_in_range _ _ Hn Hl).
  destruct (30 <=? now i - lastTriggerTime st)%Z eqn:E.
  - apply Z.leb_le in E.
    destruct (Daemon.add_result i); cbn; right;
      (split; [eexists; reflexivity | split; [reflexivity | lia]]).
  - cbn. left. split; reflexivity.
Qed.

Lemma publish_loop_rate (ins : list pub_input) :
  forall st,
    in_range (lastTriggerTime st) ->
    Forall (fun i => in_range (now i)) ins ->
    let st' := end_state (for_loop publish_iter ins st) in
    (30 * Z.of_nat (List.length (adds st'))
     <= 30 * Z.of_nat (List.length (adds st))
        + (lastTriggerTime st' - lastTriggerTime st))%Z
    /\ (lastTriggerTime st' = lastTriggerTime st
        \/ In (lastTriggerTime st') (map now ins)).
Proof.
  induction ins as [|i ins IH]; intros st Hl Hf; cbn [for_loop end_state].
  - split; [lia | left; reflexivity].
  - inversion Hf as [|? ? Hi Hf']; subst.
    pose proof (publish_iter_trigger i st Hl Hi) as T. cbn zeta in T.
    destruct (publish_iter i st) as [s|p s] eqn:E.
    + assert (Hs : in_range (lastTriggerTime s)).
      { destruct T as [[_ ->] | (_ & -> & _)]; assumption. }
      specialize (IH s Hs Hf'). cbn zeta in IH. destruct IH as [IH1 IH2].
      split.
      * destruct T as [[Ta Tt] | ((a & Ta) & Tt & Tl)]; rewrite Ta in IH1.
        -- rewrite Tt in IH1. exact IH1.
        -- rewrite length_app in IH1. cbn [List.length] in IH1. lia.
      * destruct IH2 as [IH2 | IH2].
        -- destruct T as [[_ Tt] | (_ & Tt & _)]; rewrite IH2, Tt.
           ++ left; reflexivity.
           ++ right; left; reflexivity.
        -- right. right. exact IH2.
    + cbn [end_state]. split.
      * destruct T as [[Ta Tt] | ((a & Ta) & Tt & Tl)]; rewrite Ta.
        -- rewrite Tt. lia.
        -- rewrite length_app. cbn [List.length]. lia.
      * destruct T as [[_ Tt] | (_ & Tt & _)]; rewrite Tt.
        -- left; reflexivity.
        -- right; left; reflexivity.
Qed.

(** The producer is rate-limited: with clock readings in range, whatever
    the clock does between iterations (it may stand still or go back), [n]
    calls of [Add] take the last trigger time at least [30 * n] seconds past
    the start, and that time is the start or one of the clock readings. In
    particular nothing is appended in the first thirty seconds. *)
Theorem X6_appends_thirty_seconds_apart (t0 : Z) (ins : list pub_input) :
  in_range t0 ->
  Forall (fun i => in_range (now i)) ins ->
  let st := end_state (for_loop publish_iter ins (pub_init t0)) in
  (t0 + 30 * Z.of_nat (List.length (adds st)) <= lastTriggerTime st)%Z
  /\ (lastTriggerTime st = t0 \/ In (lastTriggerTime st) (map now ins)).
Proof.
  intros H0 Hf st.
  destruct (publish_loop_rate ins (pub_init t0) H0 Hf) as [H1 H2].
  fold st in H1, H2. cbn [pub_init adds lastTriggerTime List.length] in H1, H2.
  split; [lia | exact H2].
Qed.

(** Readings 10, 30, 45 and 61 after a start at 0: [Add] is called at 30
    and at 61 only. *)
Lemma X6_appends_thirty_seconds_apart_witness :
  let ins := map (fun t => whisper_at t (Ok tt)) [10; 30; 45; 61]%Z in
  let st := end_state (for_loop publish_iter ins (pub_init 0)) in
  List.length (adds st) = 2
  /\ (0 + 30 * Z.of_nat (List.length (adds st)) <= lastTriggerTime st)%Z.
Proof.
  intros ins st. split; [reflexivity|].
  refine (proj1 (X6_appends_thirty_seconds_apart 0 ins _ _)).
  - unfold in_range. change (2 ^ 62)%Z with 4611686018427387904%Z. lia.
  - unfold in_range. change (2 ^ 62)%Z with 4611686018427387904%Z.
    repeat constructor; cbn; lia.
Defined.

(** An iteration entered with an empty buffer: no call, a call that
    succeeds, or a call that fails, each with the line of this iteration as
    the payload. *)
Lemma publish_iter_empty_buffer (i : pub_input) (st : pub_state) :
  logbuf st = [] ->
  publish_iter i st =
    Next {| lastTriggerTime := lastTriggerTime st; logbuf := [];
            adds := adds st |}
  \/ publish_iter i st =
       Next {| lastTriggerTime := now i; logbuf := [];
               adds := adds st ++ [(whisper i, true)] |}
  \/ exists e,
      publish_iter i st =
        Panics (PutFailed e)
               {| lastTriggerTime := now i; logbuf := whisper i;
                  adds := adds st ++ [(whisper i, false)] |}.
Proof.
  intros Hb. unfold publish_iter. rewrite Hb. cbn [app].
  destruct (due i st); [|left; reflexivity].
  destruct (Daemon.add_result i) as [u|e]; right;
    [left; reflexivity | right; exists e; reflexivity].
Qed.

(** The calls of [Add] made by the loop from a state with an empty buffer:
    each payload is the line of one iteration alone; while the loop runs
    every call has succeeded and the buffer is empty again; when it has
    panicked, the failed call is the last one, every earlier one succeeded,
    and the buffer still holds the payload that was refused. *)
Lemma publish_loop_adds (ins : list pub_input) :
  forall st,
    logbuf st = [] ->
    exists new,
      adds (end_state (for_loop publish_iter ins st)) = adds st ++ new
      /\ Forall (fun a => exists i, In i ins /\ fst a = whisper i) new
      /\ match for_loop publish_iter ins st with
         | Spinning s => logbuf s = [] /\ Forall (fun a => snd a = true) new
         | Unwound p s =>
             exists front i e,
               new = front ++ [(whisper i, false)]
               /\ Forall (fun a => snd a = true) front
               /\ p = PutFailed e /\ logbuf s = whisper i
         end.
Proof.
  induction ins as [|i ins IH]; intros st Hb; cbn [for_loop end_state].
  - exists []. rewrite app_nil_r. repeat split; try constructor. exact Hb.
  - assert (W : forall l : list (list byte * bool),
               Forall (fun a => exists i0, In i0 ins /\ fst a = whisper i0) l ->
               Forall (fun a => exists i0, In i0 (i :: ins)
                                           /\ fst a = whisper i0) l).
    { intros l Hl. eapply Forall_impl; [|exact Hl].
      intros a (i0 & Hin & Ha). exists i0. split; [right; exact Hin | exact Ha]. }
    destruct (publish_iter_empty_buffer i st Hb) as [E | [E | [e E]]]; rewrite E.
    + match goal with
      | |- context [for_loop publish_iter ins ?s] =>
          destruct (IH s eq_refl) as (new & H1 & H2 & H3)
      end.
      cbn [adds] in H1. exists new. split; [exact H1|]. split; [apply W, H2|].
      exact H3.
    + match goal with
      | |- context [for_loop publish_iter ins ?s] =>
          destruct (IH s eq_refl) as (new & H1 & H2 & H3)
      end.
      cbn [adds] in H1.
      exists ((whisper i, true) :: new). split; [|split].
      * rewrite H1, <- app_assoc. reflexivity.
      * constructor; [exists i; split; [left|]; reflexivity | apply W, H2].
      * destruct (for_loop publish_iter ins _) as [s|p s].
        -- destruct H3 as [H3 H4]. split; [exact H3|].
           constructor; [reflexivity | exact H4].
        -- destruct H3 as (front & j & e & -> & H4 & H5 & H6).
           exists ((whisper i, true) :: front), j, e.
           repeat split; try assumption.
           constructor; [reflexivity | exact H4].
    + cbn [end_state adds]. exists [(whisper i, false)]. split; [|split].
      * reflexivity.
      * constructor; [exists i; split; [left|]; reflexivity | constructor].
      * exists [], i, e. repeat split. constructor.
Qed.

(** An iteration entered with an empty buffer, by the clock test and the
    result of [Add]. *)
Lemma publish_iter_gate (i : pub_input) (st : pub_state) :
  logbuf st = [] ->
  publish_iter i st =
    if (30 <=? sub64 (now i) (lastTriggerTime st))%Z then
      match Daemon.add_result i with
      | Ok _ =>
          Next {| lastTriggerTime := now i; logbuf := [];
                  adds := adds st ++ [(whisper i, true)] |}
      | Err e =>
          Panics (PutFailed e)
                 {| lastTriggerTime := now i; logbuf := whisper i;
                    adds := adds st ++ [(whisper i, false)] |}
      end
    else Next {| lastTriggerTime := lastTriggerTime st; logbuf := [];
                 adds := adds st |}.
Proof.
  intros Hb. unfold publish_iter, due. rewrite Hb. cbn [app].
  destruct (30 <=? sub64 (now i) (lastTriggerTime st))%Z; [|reflexivity].
  destruct (Daemon.add_result i); reflexivity.
Qed.

Lemma publish_loop_triggered (ins : list pub_input) :
  forall st,
    logbuf st = [] ->
    adds (end_state (for_loop publish_iter ins st)) =
      adds st ++ map add_call (triggered (lastTriggerTime st) ins).
Proof.
  induction ins as [|i ins IH]; intros st Hb; cbn [for_loop end_state triggered].
  - cbn [map]. rewrite app_nil_r. reflexivity.
  - rewrite (publish_iter_gate i st Hb).
    destruct (30 <=? sub64 (now i) (lastTriggerTime st))%Z.
    + destruct (Daemon.add_result i) as [u|e] eqn:Ea; cbn [map end_state].
      * rewrite IH by reflexivity.
        cbn [adds lastTriggerTime]. rewrite <- app_assoc.
        replace (add_call i) with (whisper i, true)
          by (unfold add_call; rewrite Ea; reflexivity).
        reflexivity.
      * replace (add_call i) with (whisper i, false)
          by (unfold add_call; rewrite Ea; reflexivity).
        reflexivity.
    + rewrite IH by reflexivity. reflexivity.
Qed.

(** The calls of [Add] are made by the iterations at which thirty seconds
    have elapsed since the last call, in order, up to the first that fails,
    and each has for payload the line logged in that very iteration and
    nothing else: the buffer is reset at the end of each iteration that
    completes, so nothing of an earlier iteration is ever sent again. *)
Theorem X7_payload_is_one_event_line (t0 : Z) (ins : list pub_input) :
  adds (end_state (for_loop publish_iter ins (pub_init t0))) =
    map add_call (triggered t0 ins).
Proof. apply (publish_loop_triggered ins (pub_init t0) eq_refl). Qed.

(** The producer stops at its first refused append: while the loop runs,
    every call of [Add] it made succeeded; once it has panicked, exactly one
    call failed, the last one, and its payload is still in the buffer. *)
Theorem X8_failed_append_is_last (t0 : Z) (ins : list pub_input) :
  match for_loop publish_iter ins (pub_init t0) with
  | Spinning s =>
      Forall (fun a => snd a = true) (adds s)
      /\ appended s = map fst (adds s) /\ logbuf s = []
  | Unwound p s =>
      exists front payload e,
        adds s = front ++ [(payload, false)]
        /\ Forall (fun a => snd a = true) front
        /\ appended s = map fst front
        /\ p = PutFailed e /\ logbuf s = payload
  end.
Proof.
  assert (F : forall l : list (list byte * bool),
             Forall (fun a => snd a = true) l -> filter snd l = l).
  { induction l as [|a l IH]; intros H; [reflexivity|].
    inversion H as [|? ? Ha Hl]; subst. cbn [filter]. rewrite Ha, IH by exact Hl.
    reflexivity. }
  destruct (publish_loop_adds ins (pub_init t0) eq_refl) as (new & H1 & _ & H3).
  cbn [pub_init adds app] in H1.
  destruct (for_loop publish_iter ins (pub_init t0)) as [s|p s];
    cbn [end_state] in H1.
  - destruct H3 as [H3 H4]. rewrite H1. unfold appended. rewrite H1, F by exact H4.
    repeat split; assumption.
  - destruct H3 as (front & i & e & -> & H4 & H5 & H6).
    exists front, (whisper i), e. unfold appended. rewrite H1.
    rewrite filter_app, F by exact H4. cbn [filter snd]. rewrite app_nil_r.
    repeat split; assumption.
Qed.

(** *** Setup *)

(** [PreRun] of [cmd/daemon.go] returns exactly when its five calls
    succeed. When it panics, no goroutine has started; the context has been
    created, and is running, unless the panic is that of the configuration
    check or of the IPFS API, which come before [context.WithCancel]; the
    configuration has not been written and no store address has been set,
    unless it is the write of the configuration itself that failed; and
    when the configuration file does not exist, it has not even been
    loaded. *)
Theorem X9_PreRun_fails_without_writing (env : setup_env) :
  ((exists d, PreRun env = Next d)
   <-> is_err (config_exists env) || is_err (ipfs_api env)
       || is_err (new_orbitdb env) || is_err (db_log env)
       || is_err (write_config env) = false)
  /\ (forall p d,
         PreRun env = Panics p d ->
         ctx d = match p with
                 | ConfigNotSet _ | IpfsApiFailed _ => Unset
                 | _ => Running
                 end
         /\ pub_phase d = Starting /\ sub_phase d = Starting
         /\ (cfg_writes d = 0 /\ cfg_storeaddress d = None
             \/ exists e address,
                 p = UpdateConfigFailed e /\ write_config env = Err e
                 /\ db_log env = Ok address
                 /\ cfg_writes d = 1 /\ cfg_storeaddress d = Some address)
         /\ (cfg_loads d = 0 <-> exists e, p = ConfigNotSet e)).
Proof.
  unfold PreRun.
  destruct (config_exists env) as [u1|e1], (ipfs_api env) as [u2|e2],
    (new_orbitdb env) as [u3|e3], (db_log env) as [address|e4],
    (write_config env) as [u5|e5]; cbn [is_err orb]; split.
  all: try (split; [intros _; reflexivity | intros _; eexists; reflexivity]).
  all: try (split; [intros [d H]; discriminate | discriminate]).
  all: intros p d H; try discriminate; injection H as <- <-; cbn;
    repeat split; try discriminate;
    try (left; split; reflexivity);
    try (right; exists e5, address; repeat split; reflexivity);
    try (intros [e H]; discriminate);
    try (intros _; eexists; reflexivity).
Qed.

(** [PreRun] of the single-goroutine variant returns exactly when the
    checks succeed, the store is created after a failed search or opened
    after a successful one, and the log store is obtained. A search that
    returns no address and no error makes it panic on the nil address. It
    writes no configuration, whatever happens. *)
Theorem X10_combined_PreRun_outcomes (env : Combined.setup_env) :
  ((exists d, Combined.PreRun env = Next d)
   <-> is_err (Combined.config_exists env) || is_err (Combined.ipfs_api env)
       || is_err (Combined.new_orbitdb env) || is_err (Combined.db_log env)
       || match Combined.determine_address env with
          | Err _ => is_err (Combined.db_create env)
          | Ok (Some _) => is_err (Combined.db_open env)
          | Ok None => true
          end = false)
  /\ (is_err (Combined.config_exists env) || is_err (Combined.ipfs_api env)
      || is_err (Combined.new_orbitdb env) = false ->
      Combined.determine_address env = Ok None ->
      exists d, Combined.PreRun env = Panics NilDereference d)
  /\ Combined.cfg_writes
       (end_state match Combined.PreRun env with
                  | Next d => Spinning d
                  | Panics p d => Unwound p d
                  end) = 0.
Proof.
  unfold Combined.PreRun, Combined.get_log_store.
  destruct (Combined.config_exists env) as [u1|e1],
    (Combined.ipfs_api env) as [u2|e2],
    (Combined.new_orbitdb env) as [u3|e3],
    (Combined.determine_address env) as [[found|]|e4],
    (Combined.db_create env) as [created|e5],
    (Combined.db_open env) as [u6|e6],
    (Combined.db_log env) as [u7|e7]; cbn [is_err orb];
    (split; [|split; [|reflexivity]]).
  all: try (split; [intros _; reflexivity | intros _; eexists; reflexivity]).
  all: try (split; [intros [d H]; discriminate | discriminate]).
  all: intros H1 H2; try discriminate; eexists; reflexivity.
Qed.

(** The search finds nothing and reports no error: [PreRun] panics before
    any store is created. *)
Lemma X10_combined_PreRun_outcomes_witness :
  exists d,
    Combined.PreRun
      {| Combined.config_exists := Ok tt;
         Combined.ipfs_api := Ok tt;
         Combined.new_orbitdb := Ok tt;
         Combined.determine_address := Ok None;
         Combined.db_create := Ok "/orbitdb/zdpu/event"%string;
         Combined.db_open := Ok tt;
         Combined.db_log := Ok tt |} = Panics NilDereference d.
Proof.
  apply (fun env => proj1 (proj2 (X10_combined_PreRun_outcomes env)));
    reflexivity.
Defined.

(** *** The process, further *)

Lemma any_dead_iff (d : daemon) :
  any_dead d = true <-> pub_phase d = Dead \/ sub_phase d = Dead.
Proof.
  unfold any_dead. destruct (pub_phase d), (sub_phase d); split;
    try discriminate; try (intros [H|H]; discriminate); auto.
Qed.

Lemma step_dead_inv (e : event) (d : daemon) :
  is_cancelled (ctx d) = any_dead d ->
  fatal (proc d) = any_dead d ->
  (forall c, proc d = Exited c -> c = 0%Z) ->
  is_cancelled (ctx (step e d)) = any_dead (step e d)
  /\ fatal (proc (step e d)) = any_dead (step e d)
  /\ (forall c, proc (step e d) = Exited c -> c = 0%Z).
Proof.
  unfold any_dead. intros H1 H2 H3. revert H1 H2 H3.
  split_step d e; intros H1 H2 H3;
    repeat match goal with
           | E : ?f d = _ |- _ => try rewrite E; clear E
           end;
    cbn [fatal is_cancelled] in *;
    repeat split; try assumption; try discriminate; try reflexivity;
    try (intros c Hc; discriminate);
    try (intros c Hc; injection Hc as <-; reflexivity);
    try (intros c Hc; apply H3; exact Hc).
Qed.

Lemma step_ctx_set (e : event) (d : daemon) :
  ctx d <> Unset -> ctx (step e d) <> Unset.
Proof. intros H. split_step d e; try exact H; discriminate. Qed.

Lemma PreRun_alive (env : setup_env) (d0 : daemon) :
  PreRun env = Next d0 -> proc d0 = Alive.
Proof.
  unfold PreRun.
  destruct (config_exists env), (ipfs_api env), (new_orbitdb env),
    (db_log env), (write_config env); intros H; try discriminate;
    injection H as <-; reflexivity.
Qed.

(** [cancel()] is called by a panicking goroutine and by nothing else: in
    every state of a daemon whose setup succeeded, the context is cancelled
    exactly when one of the two goroutines is dead, which is exactly when the
    process is lost to a panic. So a process that exited did so with status
    0, with the context never cancelled and both loops unharmed. *)
Theorem X11_cancelled_iff_goroutine_dead (env : setup_env) (t0 : Z)
        (evs : list event) (d0 : daemon) :
  PreRun env = Next d0 ->
  let d := daemon_cmd env t0 evs in
  (ctx d = Cancelled <-> pub_phase d = Dead \/ sub_phase d = Dead)
  /\ (fatal (proc d) = true <-> pub_phase d = Dead \/ sub_phase d = Dead)
  /\ (forall c,
         proc d = Exited c ->
         c = 0%Z /\ ctx d = Running
         /\ pub_phase d <> Dead /\ sub_phase d <> Dead).
Proof.
  intros H d.
  assert (U : ctx d <> Unset).
  { subst d. unfold daemon_cmd. rewrite H.
    destruct (PreRun_returns env d0 H) as (Hc & _).
    assert (G : forall d1, ctx d1 <> Unset -> ctx (run evs d1) <> Unset).
    { induction evs as [|e evs IH]; intros d1 H1; [exact H1|].
      rewrite run_cons. apply IH, step_ctx_set, H1. }
    apply G. cbn [Run_start ctx]. rewrite Hc. discriminate. }
  assert (I : is_cancelled (ctx d) = any_dead d
              /\ fatal (proc d) = any_dead d
              /\ (forall c, proc d = Exited c -> c = 0%Z)).
  { clear U. subst d. unfold daemon_cmd. rewrite H.
    destruct (PreRun_returns env d0 H) as (Hc & _).
    pose proof (PreRun_alive env d0 H) as Ha.
    assert (G : forall d1,
               is_cancelled (ctx d1) = any_dead d1 ->
               fatal (proc d1) = any_dead d1 ->
               (forall c, proc d1 = Exited c -> c = 0%Z) ->
               is_cancelled (ctx (run evs d1)) = any_dead (run evs d1)
               /\ fatal (proc (run evs d1)) = any_dead (run evs d1)
               /\ (forall c, proc (run evs d1) = Exited c -> c = 0%Z)).
    { induction evs as [|e evs IH]; intros d1 H1 H2 H3; [auto|].
      rewrite run_cons.
      destruct (step_dead_inv e d1 H1 H2 H3) as (S1 & S2 & S3).
      apply IH; assumption. }
    apply G; cbn [Run_start ctx proc]; unfold any_dead;
      cbn [pub_phase sub_phase]; rewrite ?Hc, ?Ha; try reflexivity.
    intros c Hx; discriminate. }
  destruct I as (I1 & I2 & I3).
  rewrite <- any_dead_iff.
  split; [|split].
  - rewrite <- I1. destruct (ctx d); cbn [is_cancelled]; split;
      intros E; try discriminate; reflexivity.
  - rewrite I2. tauto.
  - intros c Hc.
    assert (N : any_dead d = false).
    { rewrite <- I2, Hc. reflexivity. }
    split; [exact (I3 c Hc)|]. split.
    + rewrite N in I1.
      destruct (ctx d); [contradiction | reflexivity | discriminate].
    + split; intros E;
        assert (T : any_dead d = true) by (apply any_dead_iff; auto);
        congruence.
Qed.

(** The interrupt reaches a daemon whose loops are both running: exit
    status 0, context still running. *)
Lemma X11_cancelled_iff_goroutine_dead_witness :
  let d := daemon_cmd setup_ok 0
             [SubOpen (Ok tt); SubIter (Ok [entry "A"]) Written; Sigint] in
  proc d = Exited 0 /\ ctx d = Running.
Proof.
  intros d. split; [reflexivity|].
  exact (proj1 (proj2 (proj2 (proj2 (X11_cancelled_iff_goroutine_dead
                                      setup_ok 0
                                      [SubOpen (Ok tt);
                                       SubIter (Ok [entry "A"]) Written;
                                       Sigint]
                                      _ eq_refl)) 0%Z eq_refl))).
Defined.

Lemma step_file_handle_ok (e : event) (d : daemon) :
  file_handle_ok d -> file_handle_ok (step e d).
Proof.
  unfold file_handle_ok. intros H. revert H.
  split_step d e; intros H;
    repeat match goal with
           | E : ?f d = _ |- _ => try rewrite E; clear E
           end;
    try exact H;
    try (destruct H as [-> ->]; split; [reflexivity | lia]);
    try (destruct H as [-> ->]; split; reflexivity).
Qed.

(** The sink file handle through the life of the daemon: it is not opened
    before the consumer's loop; while the consumer loops it is open and has
    not been closed; once the consumer is dead it has been closed as often
    as opened, once at most. Nothing but the consumer's own death closes
    it. *)
Theorem X12_file_handle_follows_consumer (env : setup_env) (t0 : Z)
        (evs : list event) :
  file_handle_ok (daemon_cmd env t0 evs).
Proof.
  unfold daemon_cmd.
  assert (G : forall d, file_handle_ok d -> file_handle_ok (run evs d)).
  { induction evs as [|e evs IH]; intros d H; [exact H|].
    rewrite run_cons. apply IH, step_file_handle_ok, H. }
  unfold PreRun.
  destruct (config_exists env), (ipfs_api env), (new_orbitdb env),
    (db_log env), (write_config env);
    try (apply G); unfold file_handle_ok; cbn; split; reflexivity.
Qed.

(** *** The single-goroutine loop, further *)

(** An iteration of the single-goroutine loop: [Add] is refused; or [Add]
    is accepted and then [List] fails or returns nothing; or both succeed
    and one line is printed. *)
Lemma combined_loop_iter_cases (i : Combined.loop_input) (st : Combined.loop_state) :
  (exists p,
      Combined.loop_iter i st =
        Panics p {| Combined.adds :=
                      Combined.adds st ++ [(Combined.value_of i, false)];
                    Combined.stdout := Combined.stdout st |})
  \/ (exists p,
         Combined.loop_iter i st =
           Panics p {| Combined.adds :=
                         Combined.adds st ++ [(Combined.value_of i, true)];
                       Combined.stdout := Combined.stdout st |})
  \/ (exists line,
         Combined.loop_iter i st =
           Next {| Combined.adds :=
                     Combined.adds st ++ [(Combined.value_of i, true)];
                   Combined.stdout := Combined.stdout st ++ [line] |}).
Proof.
  unfold Combined.loop_iter.
  destruct (Combined.add_result i) as [u|e];
    [|left; eexists; reflexivity].
  right. destruct (Combined.list_result i) as [[|o l]|e];
    [left; eexists; reflexivity | right; eexists; reflexivity
     | left; eexists; reflexivity].
Qed.

Lemma combined_loop_counts (ins : list Combined.loop_input) :
  forall st,
    exists new_adds new_out,
      Combined.adds (end_state (for_loop Combined.loop_iter ins st)) =
        Combined.adds st ++ new_adds
      /\ Combined.stdout (end_state (for_loop Combined.loop_iter ins st)) =
           Combined.stdout st ++ new_out
      /\ match for_loop Combined.loop_iter ins st with
         | Spinning _ =>
             new_adds = map (fun i => (Combined.value_of i, true)) ins
             /\ List.length new_out = List.length ins
         | Unwound _ _ =>
             List.length new_adds = S (List.length new_out)
             /\ List.length new_out < List.length ins
         end.
Proof.
  induction ins as [|i ins IH]; intros st; cbn [for_loop end_state].
  - exists [], []. rewrite !app_nil_r. repeat split.
  - destruct (combined_loop_iter_cases i st) as [[p E] | [[p E] | [line E]]];
      rewrite E; cbn [end_state Combined.adds Combined.stdout].
    + exists [(Combined.value_of i, false)], []. rewrite app_nil_r.
      repeat split. cbn. lia.
    + exists [(Combined.value_of i, true)], []. rewrite app_nil_r.
      repeat split. cbn. lia.
    + match goal with
      | |- context [for_loop Combined.loop_iter ins ?s] =>
          destruct (IH s) as (na & no & H1 & H2 & H3)
      end.
      cbn [Combined.adds Combined.stdout] in H1, H2.
      exists ((Combined.value_of i, true) :: na), (line :: no).
      rewrite H1, H2, <- !app_assoc. split; [reflexivity|].
      split; [reflexivity|].
      destruct (for_loop Combined.loop_iter ins _); destruct H3 as [H3 H4];
        cbn [map List.length]; split; try lia. rewrite H3. reflexivity.
Qed.

(** The single-goroutine loop appends before it lists and prints: while it
    runs, it has made one successful [Add] with the value of each iteration,
    in order, and printed one line for each, identical or not to the line
    before; once it has panicked, it has made exactly one more call of
    [Add] than it has printed lines, so the iteration that panicked, be it on
    [Add], on [List] or on the empty list, had called [Add]. *)
Theorem X14_combined_loop_appends_then_prints (ins : list Combined.loop_input) :
  match for_loop Combined.loop_iter ins Combined.loop_init with
  | Spinning s =>
      Combined.adds s = map (fun i => (Combined.value_of i, true)) ins
      /\ List.length (Combined.stdout s) = List.length ins
  | Unwound _ s =>
      List.length (Combined.adds s) = S (List.length (Combined.stdout s))
      /\ List.length (Combined.stdout s) < List.length ins
  end.
Proof.
  destruct (combined_loop_counts ins Combined.loop_init)
    as (na & no & H1 & H2 & H3).
  cbn [Combined.loop_init Combined.adds Combined.stdout app] in H1, H2.
  destruct (for_loop Combined.loop_iter ins Combined.loop_init);
    cbn [end_state] in H1, H2; rewrite H1, H2; exact H3.
Qed.

